(** * Q-learning Flappy Bird: the agent, its credit assignment and the driver

    A shallow embedding of [js/index.js] (the game loop and the Q-learning
    model) and of [js/config.js] (the handlers that save and load the
    Q-table), with the properties of the design document stated and proved
    over it.

    Conventions of the embedding.
    - JavaScript numbers that hold reward estimates, speeds and random draws
      are exact rationals ([Q]); numbers that the program keeps integral
      (pixel coordinates, counters, the three components of a state) are
      integers ([Z]) or naturals. The one test of the program that compares
      a product for equality, in the random decision of [getAction], is
      taken on the product rounded to a double.
    - [Math.random()] is an input: every call site receives the drawn value
      as an argument.
    - A function that can throw returns an option, [None] being the
      exception; a handler of [config.js] returns how it ends, with an
      [alert] or with an exception.
    - The Q-table is an object used as a map from the string that an array
      [[diffY, speedY, tubeX, action]] coerces to; it is a [gmap string Q]. *)

From Stdlib Require Import ZArith QArith Qround Qminmax Lqa Lia Ascii.
From stdpp Require Import base option list strings pretty gmap.
From Ceres Require Import Ceres.

Local Open Scope Z_scope.

(** ** Numbers *)

Module JS.

(** [Math.ceil], [Math.floor] and [Math.round] on a rational. *)
Definition Math_ceil (q : Q) : Z := Qceiling q.
Definition Math_floor (q : Q) : Z := Qfloor q.
Definition Math_round (q : Q) : Z := Qfloor (q + (1 # 2))%Q.

(** The remainder operator [%]: the result has the sign of the dividend. *)
Definition rem (a b : Z) : Z := Z.rem a b.

(** [%] on numbers that need not be integers: [a - b * trunc (a / b)]. *)
Definition Qtrunc (q : Q) : Z :=
  if Qle_bool 0 q then Qfloor q else Qceiling q.
Definition Qrem (a b : Q) : Q := (a - b * inject_Z (Qtrunc (a / b)))%Q.

(** Comparisons of numbers. *)
Definition Qltb (a b : Q) : bool :=
  match (a ?= b)%Q with Lt => true | _ => false end.

(** [Math.max] of two numbers. *)
Definition Math_max (a b : Q) : Q := if Qltb a b then b else a.

(** [Math.abs] of an integer. *)
Definition Math_abs (z : Z) : Z := Z.abs z.

(** The double that a number is rounded to. [binade n d] is the exponent
    [e] with [2^e <= n/d < 2^(e+1)]; a double of that binade is a multiple
    of [2^(e-52)] (of [2^-1074] among the subnormal ones), and the rounding
    takes the nearest multiple, the even one of two that are equally near.
    No number of the program comes near the overflow threshold, which is
    left out. *)
Definition round_half_even (a b : Z) : Z :=
  let q := a / b in
  match 2 * (a mod b) ?= b with
  | Lt => q
  | Gt => q + 1
  | Eq => if Z.even q then q else q + 1
  end.

Definition binade (n d : Z) : Z :=
  let e := Z.log2 n - Z.log2 d in
  if d * 2 ^ Z.max e 0 <=? n * 2 ^ Z.max (- e) 0 then e else e - 1.

Definition nearest_double (n d : Z) : Q :=
  let u := Z.max (binade n d - 52) (-1074) in
  let m := round_half_even (n * 2 ^ Z.max (- u) 0) (d * 2 ^ Z.max u 0) in
  (m * 2 ^ Z.max u 0) # Z.to_pos (2 ^ Z.max (- u) 0).

Definition to_double (q : Q) : Q :=
  match Qnum q with
  | 0 => 0%Q
  | Z.pos n => nearest_double (Z.pos n) (Z.pos (Qden q))
  | Z.neg n => (- nearest_double (Z.pos n) (Z.pos (Qden q)))%Q
  end.

End JS.

(** ** The Q-learning model *)

(** [actionSet = { STAY : 0, JUMP : 1 }]. *)
Inductive action := STAY | JUMP.

Definition action_code (a : action) : Z :=
  match a with STAY => 0 | JUMP => 1 end.

Global Instance action_eq_dec : EqDecision action.
Proof. solve_decision. Defined.

(** The state of the environment built in [nextStep]. *)
Record env_state := mkState { speedY : Z; tubeX : Z; diffY : Z }.

(** An entry of the frame buffer: [{ env: state, action: actionToBeTaken }]. *)
Record frame := mkFrame { env : env_state; act : action }.

(** [[ state.diffY, state.speedY, state.tubeX, action ]] used as a property
    name: the elements joined by commas. *)
Definition config_key (state : env_state) (a : action) : string :=
  pretty (diffY state) +:+ "," +:+ pretty (speedY state) +:+ ","
    +:+ pretty (tubeX state) +:+ "," +:+ pretty (action_code a).

(** A string without a comma: what every element of the array coerces to. *)
Fixpoint no_comma (s : string) : Prop :=
  match s with
  | EmptyString => True
  | String c s' => c ≠ ","%char ∧ no_comma s'
  end.

Definition gamma : Q := 8 # 10.
Definition alpha : Q := 1 # 10.

(** [getQ(state, action)]. *)
Definition getQ (Q_table : gmap string Q) (state : env_state) (a : action) : Q :=
  let config := config_key state a in
  match Q_table !! config with
  | None => 0%Q
  | Some v => v
  end.

(** [setQ(state, action, reward)]. *)
Definition setQ (Q_table : gmap string Q) (state : env_state) (a : action)
    (reward : Q) : gmap string Q :=
  let config := config_key state a in
  let Q_table1 :=
    match Q_table !! config with
    | None => <[config := 0%Q]> Q_table
    | Some _ => Q_table
    end in
  match Q_table1 !! config with
  | Some v => <[config := (v + reward)%Q]> Q_table1
  | None => Q_table1
  end.

(** The first line of [getAction]:
    [Math.ceil(Math.random() * 100000) % 90001], for the draw [r1]. *)
Definition takeRandomDecision (r1 : Q) : Z :=
  JS.rem (JS.Math_ceil (r1 * 100000)%Q) 90001.

(** [getAction(state)]; [r1] is the value of the first call of
    [Math.random()], [r2] that of the second one (made either in the random
    decision or in the tie break). The random decision compares the
    remainder of the product [Math.random() * 100] with 0, without a
    ceiling: the product is taken as the machine holds it, rounded to a
    double. *)
Definition getAction (Q_table : gmap string Q) (state : env_state)
    (r1 r2 : Q) : action :=
  if takeRandomDecision r1 =? 0 then
    let shouldJump :=
      Qeq_bool (JS.Qrem (JS.to_double (r2 * 100)%Q) 4%Q) 0%Q in
    if shouldJump then JUMP else STAY
  else
    let rewardForStay := getQ Q_table state STAY in
    let rewardForJump := getQ Q_table state JUMP in
    if JS.Qltb rewardForJump rewardForStay then STAY
    else if JS.Qltb rewardForStay rewardForJump then JUMP
    else
      let shouldJump := JS.rem (JS.Math_ceil (r2 * 100)%Q) 25 =? 0 in
      if shouldJump then JUMP else STAY.

(** The variables of the model that the learning functions read and write:
    [Q_table], [frameBuffer], [episodeFrameCount], [targetTubeIndex]
    ([None] while it is [undefined]), [targetTube] (a reference to
    [tubes[0]] or [tubes[1]], kept as the index) and [trials]. *)
Record brain := mkBrain {
  Q_table : gmap string Q;
  frameBuffer : list frame;
  episodeFrameCount : nat;
  targetTubeIndex : option Z;
  targetTube : option nat;
  trials : nat
}.

(** Local constants of [rewardTheBird]. *)
Definition minFramSize : nat := 5.
Definition theta : Z := 1.

(** The reward of one state-action pair: [reward - Math.abs(state.diffY)],
    then the [if (!wasSuccessful)] block. *)
Definition rewardForState (reward : Q) (wasSuccessful : bool)
    (state : env_state) (a : action) : Q :=
  let rewardForState := (reward - inject_Z (JS.Math_abs (diffY state)))%Q in
  if negb wasSuccessful then
    if (theta <=? diffY state) && bool_decide (a = JUMP) then
      (- rewardForState)%Q
    else if (diffY state <=? - theta) && bool_decide (a = STAY) then
      (- rewardForState)%Q
    else
      (1 # 2)%Q
  else rewardForState.

(** [updateValue] of one iteration: the Q-learning update of the pair
    [config], the entry [frameBuffer[i]], with the state of the entry
    [frameBuffer[i+1]] as [futureState]. *)
Definition updateValue (Q_table : gmap string Q) (reward : Q)
    (wasSuccessful : bool) (config : frame) (futureState : env_state) : Q :=
  let optimalFutureValue :=
    JS.Math_max (getQ Q_table futureState STAY) (getQ Q_table futureState JUMP) in
  (alpha * (rewardForState reward wasSuccessful (env config) (act config)
            + gamma * optimalFutureValue
            - getQ Q_table (env config) (act config)))%Q.

(** The [for] loop of [rewardTheBird]. The loop variable [i] is [k - 1]:
    the test [i >= 0] is [k] being a successor, [i--] is the recursive call
    on its predecessor. Reading [.env] of an entry outside the buffer throws. *)
Fixpoint rewardTheBird_loop (frameBuffer : list frame) (reward : Q)
    (wasSuccessful : bool) (k frameSize : nat) (Q_table : gmap string Q)
    : option (gmap string Q) :=
  match k, frameSize with
  | S i, S frameSize' =>
      config ← frameBuffer !! i;
      future ← frameBuffer !! (i + 1)%nat;
      let updateValue :=
        updateValue Q_table reward wasSuccessful config (env future) in
      rewardTheBird_loop frameBuffer reward wasSuccessful i frameSize'
        (setQ Q_table (env config) (act config) updateValue)
  | _, _ => Some Q_table
  end.

(** [rewardTheBird(reward, wasSuccessful)]. *)
Definition rewardTheBird (b : brain) (reward : Q) (wasSuccessful : bool)
    : option brain :=
  let frameSize := Nat.max minFramSize (episodeFrameCount b) in
  Q_table' ← rewardTheBird_loop (frameBuffer b) reward wasSuccessful
                (length (frameBuffer b) - 1)%nat frameSize (Q_table b);
  let start := Z.max (Z.of_nat (length (frameBuffer b)) - Z.of_nat minFramSize) 1 in
  Some {| Q_table := Q_table';
          frameBuffer := drop (Z.to_nat start) (frameBuffer b);
          episodeFrameCount := 0;
          targetTubeIndex := targetTubeIndex b;
          targetTube := targetTube b;
          trials := trials b |}.

(** [triggerGameOver()] (the console output is left out). *)
Definition triggerGameOver (b : brain) : option brain :=
  b' ← rewardTheBird b 100%Q false;
  Some {| Q_table := Q_table b';
          frameBuffer := frameBuffer b';
          episodeFrameCount := 0;
          targetTubeIndex := Some (-1);
          targetTube := targetTube b';
          trials := S (trials b') |}.

(** ** The game

    The variables of [index.js] that the simulation reads and writes (the
    canvases and the animation frame of the sprite are left out), and
    [isEnvironmentStatic] of [config.js]. [tubes] is an array of two tubes.
    [birdX] is never assigned after its initialisation. *)

Inductive game_state := HOME | GAME | GAME_OVER | HI_SCORE.

Global Instance game_state_eq_dec : EqDecision game_state.
Proof. solve_decision. Defined.

Record tube := mkTube { tube_x : Z; tube_y : Z }.

Record game := mkGame {
  gameState : game_state;
  score : Z;
  hiScore : Z;
  birdY : Z;
  birdYSpeed : Q;
  activeTube : nat;
  tubes_0 : tube;
  tubes_1 : tube;
  isEnvironmentStatic : bool;
  mind : brain
}.

Definition birdX : Z := 5.
Definition bgLoc_height : Z := 32.
Definition tubeLoc_height : Z := 44.

(** [tubes[i]], for [i] 0 or 1. *)
Definition tubes (g : game) (i : nat) : tube :=
  match i with O => tubes_0 g | _ => tubes_1 g end.

(** Assignments to one variable. *)
Definition with_mind (g : game) (b : brain) : game :=
  {| gameState := gameState g; score := score g; hiScore := hiScore g;
     birdY := birdY g; birdYSpeed := birdYSpeed g;
     activeTube := activeTube g; tubes_0 := tubes_0 g; tubes_1 := tubes_1 g;
     isEnvironmentStatic := isEnvironmentStatic g; mind := b |}.

Definition with_gameState (g : game) (st : game_state) : game :=
  {| gameState := st; score := score g; hiScore := hiScore g;
     birdY := birdY g; birdYSpeed := birdYSpeed g;
     activeTube := activeTube g; tubes_0 := tubes_0 g; tubes_1 := tubes_1 g;
     isEnvironmentStatic := isEnvironmentStatic g; mind := mind g |}.

Definition with_birdYSpeed (g : game) (v : Q) : game :=
  {| gameState := gameState g; score := score g; hiScore := hiScore g;
     birdY := birdY g; birdYSpeed := v;
     activeTube := activeTube g; tubes_0 := tubes_0 g; tubes_1 := tubes_1 g;
     isEnvironmentStatic := isEnvironmentStatic g; mind := mind g |}.

Definition with_targetTube (b : brain) (i : nat) : brain :=
  {| Q_table := Q_table b; frameBuffer := frameBuffer b;
     episodeFrameCount := episodeFrameCount b;
     targetTubeIndex := targetTubeIndex b; targetTube := Some i;
     trials := trials b |}.

Definition with_targetTubeIndex (b : brain) (i : Z) : brain :=
  {| Q_table := Q_table b; frameBuffer := frameBuffer b;
     episodeFrameCount := episodeFrameCount b;
     targetTubeIndex := Some i; targetTube := targetTube b;
     trials := trials b |}.

(** [setTubeY(tube)]; [r] is the draw of [Math.random()]. *)
Definition setTubeY (static : bool) (r : Q) (t : tube) : tube :=
  if static then
    mkTube (tube_x t)
      (JS.Math_floor ((639 # 1000) * inject_Z (bgLoc_height - tubeLoc_height)))
  else
    mkTube (tube_x t)
      (JS.Math_floor (r * inject_Z (bgLoc_height - tubeLoc_height + 2))).

(** [startGame()]; [r0] and [r1] are the draws of the two calls of
    [setTubeY]. *)
Definition startGame (g : game) (r0 r1 : Q) : game :=
  {| gameState := HOME; score := 0; hiScore := hiScore g;
     birdY := 14; birdYSpeed := 0;
     activeTube := activeTube g;
     tubes_0 := setTubeY (isEnvironmentStatic g) r0
                  (mkTube (JS.Math_round (48 + 0 * 19)) (tube_y (tubes_0 g)));
     tubes_1 := setTubeY (isEnvironmentStatic g) r1
                  (mkTube (JS.Math_round (48 + 1 * 19)) (tube_y (tubes_1 g)));
     isEnvironmentStatic := isEnvironmentStatic g; mind := mind g |}.

(** The body of the loop of [renderTubes] for one tube. *)
Definition moveTube (static : bool) (r : Q) (t : tube) : tube :=
  let t' := mkTube (tube_x t - 1) (tube_y t) in
  if tube_x t' <=? -6 then setTubeY static r (mkTube 32 (tube_y t')) else t'.

(** [renderTubes()] without the drawing. *)
Definition renderTubes (g : game) (r0 r1 : Q) : game :=
  {| gameState := gameState g; score := score g; hiScore := hiScore g;
     birdY := birdY g; birdYSpeed := birdYSpeed g;
     activeTube := if tube_x (tubes_0 g) <? tube_x (tubes_1 g) then 0 else 1;
     tubes_0 := moveTube (isEnvironmentStatic g) r0 (tubes_0 g);
     tubes_1 := moveTube (isEnvironmentStatic g) r1 (tubes_1 g);
     isEnvironmentStatic := isEnvironmentStatic g; mind := mind g |}.

(** [updateBirdGame()] without the drawing. *)
Definition updateBirdGame (g : game) : game :=
  let birdY1 := JS.Math_round (inject_Z (birdY g) + birdYSpeed g) in
  let speed1 := (birdYSpeed g + (25 # 100))%Q in
  let '(birdY2, speed2) := if birdY1 <? 0 then (0, 0%Q) else (birdY1, speed1) in
  let '(birdY3, speed3) :=
    if bgLoc_height <? birdY2 + 5 then (28, 0%Q) else (birdY2, speed2) in
  {| gameState := gameState g; score := score g; hiScore := hiScore g;
     birdY := birdY3; birdYSpeed := speed3;
     activeTube := activeTube g; tubes_0 := tubes_0 g; tubes_1 := tubes_1 g;
     isEnvironmentStatic := isEnvironmentStatic g; mind := mind g |}.

(** [checkCollision()]; whether a pixel of the bird overlaps a tube or the
    ground is the input [collides]. *)
Definition checkCollision (g : game) (collides : bool) : option game :=
  let score1 :=
    if birdX =? tube_x (tubes g (activeTube g)) + 6 then score g + 1
    else score g in
  if collides then
    mind' ← triggerGameOver (mind g);
    Some {| gameState := GAME_OVER; score := score1;
            hiScore := if hiScore g <? score1 then score1 + 0 else hiScore g;
            birdY := birdY g; birdYSpeed := birdYSpeed g;
            activeTube := activeTube g;
            tubes_0 := tubes_0 g; tubes_1 := tubes_1 g;
            isEnvironmentStatic := isEnvironmentStatic g; mind := mind' |}
  else
    Some {| gameState := gameState g; score := score1; hiScore := hiScore g;
            birdY := birdY g; birdYSpeed := birdYSpeed g;
            activeTube := activeTube g;
            tubes_0 := tubes_0 g; tubes_1 := tubes_1 g;
            isEnvironmentStatic := isEnvironmentStatic g; mind := mind g |}.

(** What one tick takes from outside: the draws of [Math.random()] of
    [getAction] and of [setTubeY], and the outcome of the pixel test. *)
Record tick_input := mkInput {
  action_r1 : Q; action_r2 : Q; tube_r0 : Q; tube_r1 : Q; collides : bool
}.

(** [renderGame()] without the drawing. *)
Definition renderGame (g : game) (i : tick_input) : option game :=
  checkCollision (updateBirdGame (renderTubes g (tube_r0 i) (tube_r1 i)))
    (collides i).

(** [nextStep()]. *)
Definition nextStep (g : game) (r1 r2 : Q) : option game :=
  if negb (bool_decide (gameState g = GAME)) then Some g
  else
    mind1 ←
      (if (birdX <? tube_x (tubes g 0) + 3)
          && ((tube_x (tubes g 0) <? tube_x (tubes g 1))
              || (tube_x (tubes g 1) + 3 <? birdX))
       then
         let m := with_targetTube (mind g) 0 in
         m' ← (if bool_decide (targetTubeIndex m = Some 1)
               then rewardTheBird m 5%Q true else Some m);
         Some (with_targetTubeIndex m' 0)
       else
         let m := with_targetTube (mind g) 1 in
         m' ← (if bool_decide (targetTubeIndex m = Some 0)
               then rewardTheBird m 5%Q true else Some m);
         Some (with_targetTubeIndex m' 1));
    let target := tubes g (default 0%nat (targetTube mind1)) in
    if 28 <? tube_x target - birdX then Some (with_mind g mind1)
    else
      let state :=
        {| speedY := JS.Math_round (birdYSpeed g * 100);
           tubeX := tube_x target;
           diffY := (tube_y target + 17 + 6) - (birdY g + 1) |} in
      let actionToBeTaken := getAction (Q_table mind1) state r1 r2 in
      let config := {| env := state; act := actionToBeTaken |} in
      let mind2 :=
        {| Q_table := Q_table mind1;
           frameBuffer := frameBuffer mind1 ++ [config];
           episodeFrameCount := S (episodeFrameCount mind1);
           targetTubeIndex := targetTubeIndex mind1;
           targetTube := targetTube mind1;
           trials := trials mind1 |} in
      if bool_decide (actionToBeTaken = JUMP)
      then Some (with_birdYSpeed (with_mind g mind2) (- (14 # 10))%Q)
      else Some (with_mind g mind2).

(** [loop()], the function that the interval timer calls. In the states
    [HOME] and [HI_SCORE] it only draws. *)
Definition loop (g : game) (i : tick_input) : option game :=
  match gameState g with
  | HOME => Some g
  | GAME =>
      g1 ← nextStep g (action_r1 i) (action_r2 i);
      renderGame g1 i
  | GAME_OVER =>
      (* [renderGameOver] increments the score, [startGame] resets it *)
      Some (with_gameState (startGame g (tube_r0 i) (tube_r1 i)) GAME)
  | HI_SCORE => Some g
  end.

(** [handleUserInteraction(event)]. *)
Definition handleUserInteraction (g : game) (r0 r1 : Q) : game :=
  match gameState g with
  | HOME => with_gameState g GAME
  | GAME => with_birdYSpeed g (- (14 # 10))%Q
  | HI_SCORE => startGame g r0 r1
  | GAME_OVER => g
  end.

(** [environmentChange(curEnv)] of [config.js]. *)
Definition environmentChange (g : game) (curEnv : string) : game :=
  {| gameState := gameState g; score := score g; hiScore := hiScore g;
     birdY := birdY g; birdYSpeed := birdYSpeed g;
     activeTube := activeTube g; tubes_0 := tubes_0 g; tubes_1 := tubes_1 g;
     isEnvironmentStatic := bool_decide (curEnv = "Static");
     mind := mind g |}.

(** The variables after the scripts are loaded and [initGame] has run. *)
Definition initial_brain : brain :=
  {| Q_table := ∅; frameBuffer := []; episodeFrameCount := 0;
     targetTubeIndex := None; targetTube := None; trials := 0 |}.

Definition initial_game : game :=
  startGame
    {| gameState := HOME; score := 0; hiScore := 0; birdY := 0;
       birdYSpeed := 0; activeTube := 0;
       tubes_0 := mkTube 0 0; tubes_1 := mkTube 0 0;
       isEnvironmentStatic := true; mind := initial_brain |} 0 0.

(** The assignment [Q_table = ...] of [loadModel] and [loadPreModel]. *)
Definition with_Q_table (g : game) (T : gmap string Q) : game :=
  with_mind g
    {| Q_table := T; frameBuffer := frameBuffer (mind g);
       episodeFrameCount := episodeFrameCount (mind g);
       targetTubeIndex := targetTubeIndex (mind g);
       targetTube := targetTube (mind g);
       trials := trials (mind g) |}.

(** What happens to the page: a tick of the timer, a key or a touch, a
    change of the environment selector, and the replacement of the table by
    a loaded one. *)
Inductive event :=
  | Tick (i : tick_input)
  | UserInteraction (r0 r1 : Q)
  | EnvironmentChange (curEnv : string)
  | TableLoaded (T : gmap string Q).

Definition react (g : game) (e : event) : option game :=
  match e with
  | Tick i => loop g i
  | UserInteraction r0 r1 => Some (handleUserInteraction g r0 r1)
  | EnvironmentChange curEnv => Some (environmentChange g curEnv)
  | TableLoaded T => Some (with_Q_table g T)
  end.

(** The states of the game that a session reaches. *)
Inductive reachable : game → Prop :=
  | reachable_initial : reachable initial_game
  | reachable_react g e g' :
      reachable g → react g e = Some g' → reachable g'.

(** The tube that [nextStep] takes as target: the test of its first [if]. *)
Definition nextTarget (g : game) : nat :=
  if (birdX <? tube_x (tubes g 0) + 3)
     && ((tube_x (tubes g 0) <? tube_x (tubes g 1))
         || (tube_x (tubes g 1) + 3 <? birdX))
  then 0%nat else 1%nat.

(** The horizontal distance from the bird to that tube. *)
Definition targetDistance (g : game) : Z :=
  tube_x (tubes g (nextTarget g)) - birdX.

(** The two tubes are 19 pixels apart, the one behind the other. *)
Definition tubes_spaced (x0 x1 : Z) : Prop :=
  (x1 = x0 + 19 ∧ -5 ≤ x0 ≤ 48) ∨ (x0 = x1 + 19 ∧ -5 ≤ x1 ≤ 13).

(** The invariant of the session: the state [HI_SCORE] is never entered;
    after a collision [targetTubeIndex] is -1; otherwise the tubes are
    spaced, and while [tubes[0]] is still far on the right it has not been
    passed: [targetTubeIndex] is not 1. *)
Definition game_inv (g : game) : Prop :=
  gameState g ≠ HI_SCORE
  ∧ (gameState g = GAME_OVER → targetTubeIndex (mind g) = Some (-1))
  ∧ (gameState g ≠ GAME_OVER →
     tubes_spaced (tube_x (tubes_0 g)) (tube_x (tubes_1 g))
     ∧ (34 ≤ tube_x (tubes_0 g) → targetTubeIndex (mind g) ≠ Some 1)).

(** ** Saving and loading the table ([config.js])

    [Q_table] is assigned whatever [JSON.parse] returns: the variable holds
    a value that is [null], an object of numbers (a table), or any other
    value. The browser provides [JSON.stringify], [JSON.parse] (which throws
    a [SyntaxError] on a text that is not JSON: the result [None]) and
    [localStorage]; the first two are parameters of the handlers (their
    model on the texts of tables follows the handlers), the third is a map
    from keys to strings. A handler ends with an [alert] or with an
    exception. *)

Inductive js_value :=
  | js_null
  | js_table (t : gmap string Q)
  | js_other.

Record JSON_object := mkJSON {
  JSON_stringify : js_value → string;
  JSON_parse : string → option js_value
}.

Inductive js_error := SyntaxError.

Inductive completion :=
  | alert (message : string)
  | throw (e : js_error).

Record page := mkPage {
  page_Q_table : js_value;
  localStorage : gmap string string
}.

(** [String(v)] for the result [v] of [localStorage.getItem], which is
    [null] when there is no item: the argument that [JSON.parse] parses. *)
Definition ToString (item : option string) : string :=
  default "null" item.

Module Config.

(** [saveModel()]. *)
Definition saveModel (JSON : JSON_object) (p : page) : page * completion :=
  (mkPage (page_Q_table p)
     (<["flappybird-qtable" := JSON_stringify JSON (page_Q_table p)]>
        (localStorage p)),
   alert "Model was saved successfully!").

(** [loadModel()], as the first copy of the file has it (lines 36-43). *)
Definition loadModel (JSON : JSON_object) (p : page) : page * completion :=
  if bool_decide (localStorage p !! "flappybird-qtable" ≠ None) then
    match JSON_parse JSON (ToString (localStorage p !! "flappybird-qtable")) with
    | Some v => (mkPage v (localStorage p),
                 alert "Model was loaded successfully!")
    | None => (p, throw SyntaxError)
    end
  else (p, alert "No saved model found in local storage").

End Config.

Module Config2.

(** [saveModel()] of the second copy of the file is the one of the
    first. *)
Definition saveModel := Config.saveModel.

(** [loadModel()], as the second copy of the file has it (lines 98-101). *)
Definition loadModel (JSON : JSON_object) (p : page) : page * completion :=
  match JSON_parse JSON (ToString (localStorage p !! "flappybird-qtable")) with
  | Some v => (mkPage v (localStorage p),
               alert "Model was loaded successfully!")
  | None => (p, throw SyntaxError)
  end.

End Config2.

(** ** The JSON text of a table

    [JSON.stringify] and [JSON.parse] on the values that [Q_table] holds,
    after the grammar of JSON texts. A table is written as an object, each
    entry as its key between quotes, a colon and the estimate, the entries
    separated by commas (an object keeps its properties in the order of
    their creation; a [gmap] has no such order and the entries are written
    in the order of [map_to_list], which no reader of the text goes by).
    The keys of a table hold digits, signs and commas ([config_key]): none
    of the characters that [JSON.stringify] escapes, and the model writes a
    key as it is. [JSON.stringify] writes a number as a decimal numeral
    that [JSON.parse] reads back as the same number: the shortest one that
    gives back the double, with an exponent when the number is very large
    or very small. The numbers of the model are exact rationals and are
    written with all their decimals and without exponent, a minus sign
    first when negative, the fraction after a point when there is one.
    Every number of JavaScript has finitely many decimals; a rational
    without a finite expansion is no such number and is written as the
    numbers that are not finite are, as null.

    [JSON_text.parse] reads what [JSON.stringify] writes for a value of
    [Q_table]: the text null, and an object whose members are numbers,
    without white space or escape sequences; a numeral has no leading
    zero, a digit on both sides of its point, and an exponent or none. It
    returns [None] on every other text. *)

Module JSON_text.

Definition quote : ascii := "034"%char.
Definition backslash : ascii := "092"%char.

(** A character that [JSON.stringify] writes as it is. *)
Definition plain_char (c : ascii) : bool :=
  negb (Ascii.eqb c quote) && negb (Ascii.eqb c backslash)
  && (32 <=? nat_of_ascii c)%nat.

Definition digit_char (d : Z) : ascii := ascii_of_nat (Z.to_nat (48 + d)).

Definition digit_value (c : ascii) : option Z :=
  let n := Z.of_nat (nat_of_ascii c) in
  if (48 <=? n) && (n <=? 57) then Some (n - 48) else None.

(** The last [k] decimal digits of [n], followed by [rest]. *)
Fixpoint digits (k : nat) (n : Z) (rest : list ascii) : list ascii :=
  match k with
  | O => rest
  | S k' => digits k' (n / 10) (digit_char (n mod 10) :: rest)
  end.

(** The number of decimal digits of [n], at most [fuel + 1]. *)
Fixpoint count_digits (fuel : nat) (n : Z) : nat :=
  match fuel with
  | O => 1
  | S fuel' => if n <? 10 then 1%nat else S (count_digits fuel' (n / 10))
  end.

Definition number_of_digits (n : Z) : nat :=
  count_digits (Z.to_nat (Z.log2 n) + 1) n.

(** The least number [k] of decimals, from [k0] on, for which [n / d] times
    [10^(k - k0)] is an integer. *)
Fixpoint find_places (fuel k0 : nat) (n d : Z) : option nat :=
  if n mod d =? 0 then Some k0
  else match fuel with
       | O => None
       | S fuel' => find_places fuel' (S k0) (n * 10) d
       end.

(** The number of decimals of [q]; a denominator [2^a * 5^b] takes
    [max a b] of them, which is less than its length in bits. *)
Definition decimal_places (q : Q) : option nat :=
  find_places (Pos.to_nat (Pos.size (Qden q))) 0 (Qnum q) (Z.pos (Qden q)).

(** [q] times [10^k]. *)
Definition scaled (q : Q) (k : nat) : Z :=
  Qnum q * 10 ^ Z.of_nat k / Z.pos (Qden q).

Definition null_text : list ascii := String.list_ascii_of_string "null".

(** The numeral of [q]. *)
Definition print_number (q : Q) : list ascii :=
  match decimal_places q with
  | None => null_text
  | Some k =>
      let m := Z.abs (scaled q k) in
      let int := m / 10 ^ Z.of_nat k in
      (if scaled q k <? 0 then ["-"%char] else [])
      ++ digits (number_of_digits int) int
           (match k with
            | O => []
            | S _ => "."%char :: digits k m []
            end)
  end.

Definition print_member (kv : string * Q) : list ascii :=
  quote :: String.list_ascii_of_string kv.1 ++ quote :: ":"%char :: print_number kv.2.

Fixpoint print_members (l : list (string * Q)) : list ascii :=
  match l with
  | [] => []
  | kv :: l' =>
      print_member kv
      ++ match l' with [] => [] | _ :: _ => ","%char :: print_members l' end
  end.

Definition print_table (t : gmap string Q) : list ascii :=
  "{"%char :: print_members (map_to_list t) ++ ["}"%char].

Definition stringify (v : js_value) : string :=
  match v with
  | js_null => "null"
  | js_table t => String.string_of_list_ascii (print_table t)
  | js_other => "true"
  end.

(** The text after the character [c], when it starts with it. *)
Definition expect (c : ascii) (s : list ascii) : option (list ascii) :=
  match s with
  | c' :: s' => if Ascii.eqb c c' then Some s' else None
  | [] => None
  end.

(** The digits that [s] starts with: their value after [acc], their number
    after [count], and the text that follows them. *)
Fixpoint read_digits (s : list ascii) (acc : Z) (count : nat)
    : Z * nat * list ascii :=
  match s with
  | c :: s' =>
      match digit_value c with
      | Some d => read_digits s' (10 * acc + d) (S count)
      | None => (acc, count, s)
      end
  | [] => (acc, count, [])
  end.

(** The part of a numeral before its exponent: a minus sign or none,
    digits without a leading zero, and a point followed by digits or
    none. *)
Definition parse_decimal (s : list ascii) : option (Q * list ascii) :=
  let '(sign, s1) :=
    match expect "-" s with Some s' => (-1, s') | None => (1, s) end in
  let '(int, int_digits, s2) := read_digits s1 0 0 in
  let leading_zero :=
    match expect "0" s1 with Some _ => true | None => false end in
  if (int_digits =? 0)%nat || (leading_zero && (1 <? int_digits)%nat)
  then None
  else
    match expect "." s2 with
    | None => Some (sign * int # 1, s2)
    | Some s3 =>
        let '(frac, frac_digits, s4) := read_digits s3 0 0 in
        if (frac_digits =? 0)%nat then None
        else
          Some (sign * (int * 10 ^ Z.of_nat frac_digits + frac)
                  # Z.to_pos (10 ^ Z.of_nat frac_digits),
                s4)
    end.

(** [v] times [10^e]. *)
Definition shift_decimal (v : Q) (e : Z) : Q :=
  if 0 <=? e then (Qnum v * 10 ^ e) # Qden v
  else Qnum v # (Qden v * Z.to_pos (10 ^ (- e))).

(** The exponent of a numeral, or none: an [e], a sign or none, and
    digits. *)
Definition parse_exponent (v : Q) (s : list ascii) : option (Q * list ascii) :=
  match s with
  | c :: s1 =>
      if Ascii.eqb c "e" || Ascii.eqb c "E" then
        let '(sign, s2) :=
          match expect "-" s1, expect "+" s1 with
          | Some s', _ => (-1, s')
          | None, Some s' => (1, s')
          | None, None => (1, s1)
          end in
        let '(e, e_digits, s3) := read_digits s2 0 0 in
        if (e_digits =? 0)%nat then None
        else Some (shift_decimal v (sign * e), s3)
      else Some (v, s)
  | [] => Some (v, s)
  end.

(** A numeral. *)
Definition parse_number (s : list ascii) : option (Q * list ascii) :=
  '(v, s1) ← parse_decimal s; parse_exponent v s1.

(** The characters of a key up to the closing quote. *)
Fixpoint parse_key (s : list ascii) : option (list ascii * list ascii) :=
  match s with
  | [] => None
  | c :: s' =>
      if Ascii.eqb c quote then Some ([], s')
      else if plain_char c then
        '(k, rest) ← parse_key s'; Some (c :: k, rest)
      else None
  end.

Definition parse_member (s : list ascii)
    : option (string * Q * list ascii) :=
  s1 ← expect quote s;
  '(k, s2) ← parse_key s1;
  s3 ← expect ":" s2;
  '(v, s4) ← parse_number s3;
  Some (String.string_of_list_ascii k, v, s4).

(** The members of an object up to its closing brace, which ends the
    text. *)
Fixpoint parse_members (fuel : nat) (s : list ascii)
    : option (list (string * Q)) :=
  match fuel with
  | O => None
  | S fuel' =>
      '(k, v, s1) ← parse_member s;
      match s1 with
      | [c] => if Ascii.eqb c "}" then Some [(k, v)] else None
      | c :: s2 =>
          if Ascii.eqb c "," then
            l ← parse_members fuel' s2; Some ((k, v) :: l)
          else None
      | [] => None
      end
  end.

(** An object: of two members of the same key the later one stays. *)
Definition parse_table (s : list ascii) : option (gmap string Q) :=
  s1 ← expect "{" s;
  match s1 with
  | [c] => if Ascii.eqb c "}" then Some ∅ else None
  | _ => l ← parse_members (length s1) s1; Some (list_to_map (reverse l))
  end.

Definition parse (text : string) : option js_value :=
  if bool_decide (text = "null") then Some js_null
  else js_table <$> parse_table (String.list_ascii_of_string text).

End JSON_text.

(** The [JSON] object of the model. *)
Definition text_JSON : JSON_object :=
  {| JSON_stringify := JSON_text.stringify; JSON_parse := JSON_text.parse |}.

(** The estimate that is read back for [q]. *)
Definition read_back (q : Q) : Q :=
  match JSON_text.decimal_places q with
  | Some k => JSON_text.scaled q k # Z.to_pos (10 ^ Z.of_nat k)
  | None => q
  end.

(** A rational with finitely many decimals. *)
Definition decimal (q : Q) : Prop :=
  ∃ k : nat, (Z.pos (Qden q) | Qnum q * 10 ^ Z.of_nat k).

(** A key that is written as it is. *)
Definition plain_key (k : string) : Prop :=
  Forall (fun c => JSON_text.plain_char c = true) (String.list_ascii_of_string k).

(** A table whose keys are plain and whose estimates have finitely many
    decimals. *)
Definition storable (t : gmap string Q) : Prop :=
  ∀ k v, t !! k = Some v → plain_key k ∧ decimal v.

(** A text that ends a numeral: it starts with no digit, no point and no
    exponent. *)
Definition number_end (tail : list ascii) : Prop :=
  match tail with
  | [] => True
  | c :: _ =>
      JSON_text.digit_value c = None ∧ c ≠ "."%char
      ∧ c ≠ "e"%char ∧ c ≠ "E"%char
  end.

(** An entry for which the search of [print_number] finds the decimals. *)
Definition written (kv : string * Q) : Prop :=
  plain_key kv.1 ∧ is_Some (JSON_text.decimal_places kv.2).

(** ** Credit assignment as the design document words it

    [assignCredit] below is written from the description of the walk, not
    from the code: it is the definition that [rewardTheBird] is compared
    with. *)

(** [get(state, action)]: the estimate, [0] when absent. *)
Definition table_get (T : gmap string Q) (s : env_state) (a : action) : Q :=
  default 0%Q (T !! config_key s a).

(** [add(state, action, delta)]. *)
Definition table_add (T : gmap string Q) (s : env_state) (a : action)
    (delta : Q) : gmap string Q :=
  <[config_key s a := (table_get T s a + delta)%Q]> T.

(** The one-step temporal-difference correction of [visited], whose
    chronologically next buffer entry is [next]. *)
Definition td_delta (T : gmap string Q) (baseReward : Q) (wasSuccessful : bool)
    (visited next : frame) : Q :=
  let optimalFuture :=
    Qmax (table_get T (env next) STAY) (table_get T (env next) JUMP) in
  ((1 # 10) * (rewardForState baseReward wasSuccessful (env visited) (act visited)
               + (8 # 10) * optimalFuture
               - table_get T (env visited) (act visited)))%Q.

(** The indices that the walk visits, in the order of the visits: it starts
    at the second-most-recent entry, [len - 2], and goes backward for
    [window] steps or until the buffer start. *)
Definition walk_indices (len window : nat) : list nat :=
  (fun j => len - 2 - j)%nat <$> seq 0 (Nat.min (len - 1) window).

(** One visit of the walk. *)
Definition assignCredit_visit (buffer : list frame) (baseReward : Q)
    (wasSuccessful : bool) (T : gmap string Q) (i : nat) : gmap string Q :=
  match buffer !! i, buffer !! S i with
  | Some visited, Some next =>
      table_add T (env visited) (act visited)
        (td_delta T baseReward wasSuccessful visited next)
  | _, _ => T
  end.

(** The Value Table after the walk. *)
Definition assignCredit_table (buffer : list frame) (steps : nat)
    (baseReward : Q) (wasSuccessful : bool) (T : gmap string Q)
    : gmap string Q :=
  foldl (assignCredit_visit buffer baseReward wasSuccessful) T
    (walk_indices (length buffer) (Nat.max 5 steps)).

(** The table in the middle of a call of [rewardTheBird]: the loop of the
    call stopped after [j] iterations (run with [frameSize = j]). *)
Definition table_after_visits (b : brain) (reward : Q) (wasSuccessful : bool)
    (j : nat) : option (gmap string Q) :=
  rewardTheBird_loop (frameBuffer b) reward wasSuccessful
    (length (frameBuffer b) - 1)%nat j (Q_table b).

(** The failure shaping as the design document words it: the reward is
    negated when the deviation exceeds the tolerance ("by more than theta")
    on the side that makes the action wrong, and is [1/2] otherwise. *)
Definition shaping_by_more_than_theta (baseReward : Q) (wasSuccessful : bool)
    (s : env_state) (a : action) : Q :=
  let r := (baseReward - inject_Z (Z.abs (diffY s)))%Q in
  if wasSuccessful then r
  else if bool_decide (1 < diffY s ∧ a = JUMP) then (- r)%Q
  else if bool_decide (diffY s < -1 ∧ a = STAY) then (- r)%Q
  else (1 # 2)%Q.

(** ** Probabilities of events of one random draw

    [Math.random()] is uniform on the unit interval. Cut the interval in [n]
    cells of equal length, the cell number [j] being from [j/n] (excluded)
    to [(j+1)/n] (included): [Math.ceil(Math.random() * n)] is [j + 1] on
    the whole cell, so an event that depends on the draw through this value
    only has as probability the fraction of the cells on which it holds.
    [frequency n event] is that fraction, each cell being tested at its
    midpoint. *)
Definition cell_midpoint (n : positive) (j : Z) : Q :=
  (2 * j + 1) # (2 * n).

(** The number of cells [j = 0, ..., n - 1] on which the event holds. *)
Definition count_cells (n : positive) (event : Q → bool) : Z :=
  snd (Pos.iter
         (fun st : Z * Z =>
            (fst st + 1,
             if event (cell_midpoint n (fst st)) then snd st + 1 else snd st))
         (0, 0) n).

Definition frequency (n : positive) (event : Q → bool) : Q :=
  count_cells n event # n.

(** ** Sample data *)

(** The game after the first key press: the bird at 5, the tubes at 48 and
    67. *)
Definition game_started : game := with_gameState initial_game GAME.

Definition S1 : env_state := mkState 25 20 3.
Definition S2 : env_state := mkState 50 19 0.
Definition S3 : env_state := mkState 75 18 (-2).

(** The buffer [[(S1, Stay), (S2, Jump), (S3, Stay)]] on an empty table. *)
Definition brain3 : brain :=
  {| Q_table := ∅;
     frameBuffer := [mkFrame S1 STAY; mkFrame S2 JUMP; mkFrame S3 STAY];
     episodeFrameCount := 3;
     targetTubeIndex := Some 0;
     targetTube := Some 0%nat;
     trials := 0 |}.

(** A buffer of exactly [minFramSize] entries. *)
Definition brain5 : brain :=
  {| Q_table := ∅;
     frameBuffer := [mkFrame S1 STAY; mkFrame S2 JUMP; mkFrame S3 STAY;
                     mkFrame S2 STAY; mkFrame S1 JUMP];
     episodeFrameCount := 5;
     targetTubeIndex := Some 0;
     targetTube := Some 0%nat;
     trials := 0 |}.

(** An empty buffer and a buffer of one entry. *)
Definition brain0 : brain :=
  {| Q_table := {[ config_key S1 STAY := (1 # 2)%Q ]};
     frameBuffer := [];
     episodeFrameCount := 0;
     targetTubeIndex := None;
     targetTube := None;
     trials := 0 |}.

Definition brain1 : brain :=
  {| Q_table := {[ config_key S1 STAY := (1 # 2)%Q ]};
     frameBuffer := [mkFrame S1 STAY];
     episodeFrameCount := 1;
     targetTubeIndex := Some 0;
     targetTube := Some 0%nat;
     trials := 0 |}.

(** A state that no session reaches: [tubes[0]] is still at 48 although
    [targetTubeIndex] says that [tubes[1]] was the target. *)
Definition game_unreachable : game :=
  with_mind game_started (with_targetTubeIndex brain3 1).

(** Another [JSON] object than [text_JSON], for the properties of the
    handlers that hold whatever the [JSON] object is: it writes a table as
    the S-expression of its entries, each estimate as its numerator and
    denominator, and [null] as the text null. *)
Definition table_entries (t : gmap string Q) : list (string * (Z * Z)) :=
  (fun kv => (kv.1, (Qnum kv.2, Z.pos (Qden kv.2)))) <$> map_to_list t.

Definition entries_table (l : list (string * (Z * Z))) : gmap string Q :=
  list_to_map ((fun kv => (kv.1, (kv.2.1 # Z.to_pos kv.2.2)%Q)) <$> l).

Definition sample_JSON : JSON_object :=
  {| JSON_stringify v :=
       match v with
       | js_null => "null"
       | js_table t => to_string (table_entries t)
       | js_other => "true"
       end;
     JSON_parse text :=
       if bool_decide (text = "null") then Some js_null
       else if bool_decide (text = "true") then Some js_other
       else match (from_string text : error + list (string * (Z * Z))) with
            | inr l => Some (js_table (entries_table l))
            | inl _ => None
            end |}.

Definition sample_table : gmap string Q :=
  <[config_key S2 JUMP := (1 # 2)%Q]> (<[config_key S1 STAY := (6 # 25)%Q]> ∅).

(** A page with the sample table and nothing stored, and one with a stored
    text that is not a document. *)
Definition page_unsaved : page := mkPage (js_table sample_table) ∅.

Definition page_malformed : page :=
  mkPage (js_table sample_table) {[ "flappybird-qtable" := "((oops" ]}.

(** ** Notions for the further properties *)

Global Instance env_state_eq_dec : EqDecision env_state.
Proof. solve_decision. Defined.

(** Every estimate of the table lies between [-B] and [B]. *)
Definition table_bounded (T : gmap string Q) (B : Q) : Prop :=
  ∀ k v, T !! k = Some v → (- B <= v ∧ v <= B)%Q.

(** The key of an entry of the frame buffer. *)
Definition frame_key (f : frame) : string := config_key (env f) (act f).

(** The state that [nextStep] forms when its target is [tubes[i]]. *)
Definition observedState (g : game) (i : nat) : env_state :=
  {| speedY := JS.Math_round (birdYSpeed g * 100);
     tubeX := tube_x (tubes g i);
     diffY := (tube_y (tubes g i) + 17 + 6) - (birdY g + 1) |}.

(** [nextStep] finds the episode finished: [targetTubeIndex] is the index
    of the other tube. *)
Definition episodeEnds (g : game) : bool :=
  bool_decide (targetTubeIndex (mind g) = Some (1 - Z.of_nat (nextTarget g))).

(** A value of [Math.random()]: at least 0, less than 1. *)
Definition valid_draw (r : Q) : Prop := (0 <= r ∧ r < 1)%Q.

Definition valid_event (e : event) : Prop :=
  match e with
  | Tick i =>
      valid_draw (action_r1 i) ∧ valid_draw (action_r2 i)
      ∧ valid_draw (tube_r0 i) ∧ valid_draw (tube_r1 i)
  | UserInteraction r0 r1 => valid_draw r0 ∧ valid_draw r1
  | EnvironmentChange _ | TableLoaded _ => True
  end.

(** The states of the game that a session reaches when every draw is a
    value of [Math.random()]. *)
Inductive session : game → Prop :=
  | session_initial : session initial_game
  | session_react g e g' :
      session g → valid_event e → react g e = Some g' → session g'.

(** The states of a session in which no table is loaded: the table is the
    one learnt from the empty table. *)
Inductive training : game → Prop :=
  | training_initial : training initial_game
  | training_react g e g' :
      training g → valid_event e → (∀ T, e ≠ TableLoaded T) →
      react g e = Some g' → training g'.

(** The ranges of the components of a recorded state. *)
Definition frame_in_range (f : frame) : Prop :=
  2 ≤ tubeX (env f) ≤ 33 ∧ -16 ≤ diffY (env f) ≤ 22 ∧ -140 ≤ speedY (env f).

(** What holds in every state of a session: the state [HI_SCORE] is not
    entered, the tubes are spaced and their heights in range, the bird is on
    the screen and not faster upward than a jump, the buffer holds the
    frames of the running episode and at most 5 older ones, and every
    recorded state is in range. *)
Definition play_inv (g : game) : Prop :=
  tubes_spaced (tube_x (tubes_0 g)) (tube_x (tubes_1 g))
  ∧ 0 ≤ birdY g ≤ 28
  ∧ (- (14 # 10) <= birdYSpeed g)%Q
  ∧ -10 ≤ tube_y (tubes_0 g) ≤ 0 ∧ -10 ≤ tube_y (tubes_1 g) ≤ 0
  ∧ (episodeFrameCount (mind g) ≤ length (frameBuffer (mind g))
     ≤ episodeFrameCount (mind g) + 5)%nat
  ∧ Forall frame_in_range (frameBuffer (mind g)).

Definition session_inv (g : game) : Prop :=
  gameState g ≠ HI_SCORE ∧ play_inv g.

(** A game in play with [tubes[0]] 15 pixels away as target, and one in
    which the bird has just passed [tubes[0]], the target so far. *)
Definition game_near : game :=
  {| gameState := GAME; score := 0; hiScore := 0; birdY := 14;
     birdYSpeed := (- (14 # 10))%Q; activeTube := 0;
     tubes_0 := mkTube 20 (-8); tubes_1 := mkTube 39 (-8);
     isEnvironmentStatic := true; mind := with_targetTubeIndex brain3 0 |}.

Definition game_passing : game :=
  {| gameState := GAME; score := 1; hiScore := 1; birdY := 14;
     birdYSpeed := (25 # 100)%Q; activeTube := 0;
     tubes_0 := mkTube 2 (-8); tubes_1 := mkTube 21 (-8);
     isEnvironmentStatic := true; mind := with_targetTubeIndex brain3 0 |}.

(** A tick without collision, and the game after [n] such ticks. *)
Definition quiet_tick : tick_input :=
  mkInput (1 # 2) (1 # 2) (1 # 2) (1 # 2) false.

Fixpoint play (n : nat) (g : game) : option game :=
  match n with
  | O => Some g
  | S n' => g1 ← loop g quiet_tick; play n' g1
  end.

(** The game 16 ticks after the first key press: the first tube has come
    within 28 pixels and one frame is recorded. *)
Definition game_recording : game := default game_started (play 16 game_started).

(** A tick on which a collision is found. *)
Definition collision_tick : tick_input :=
  mkInput (1 # 2) (1 # 2) (1 # 2) (1 # 2) true.

(** The game 50 ticks after the first key press: the bird has passed the
    first tube and the episode has been rewarded. *)
Definition game_trained : game := default game_started (play 50 game_started).

(** ** Collisions

    [checkCollision] reads the rectangle of 5 by 3 pixels at
    [(birdX, birdY)] from two canvases and finds a collision when a pixel
    is opaque on the one and not on the other. On the collision canvas
    [renderTubes] and [updateBirdGame] have drawn the tubes and the bird,
    the one cancelling the other where they overlap; on the render canvas
    the score and the ground have been drawn as well. At a pixel that no
    tube, digit or ground covers both canvases hold the bird alone, so a
    collision needs a pixel of the rectangle that one of them covers. The
    rectangle is on the columns 5 to 9 and, the bird being at 28 at most,
    above the row 31 of the ground. A tube is 6 pixels wide and higher than
    the screen: it reaches these columns when its [x] is from 0 to 9. The
    digits are 5 by 9 pixels on the rows 1 to 9, the last one at the column
    25 and each other one 5 columns to the left of the next: only the fifth
    from the right, of a score of 10000 or more, is on these columns. *)
Definition collision_possible (g : game) : bool :=
  ((0 <=? tube_x (tubes_0 g)) && (tube_x (tubes_0 g) <=? birdX + 4))
  || ((0 <=? tube_x (tubes_1 g)) && (tube_x (tubes_1 g) <=? birdX + 4))
  || ((10000 <=? score g) && (birdY g <=? 9)).

(** The variables at the call of [checkCollision] in a tick of the state
    [GAME]: after [nextStep], [renderTubes] and [updateBirdGame]. *)
Definition beforeCheckCollision (g : game) (i : tick_input) : option game :=
  g1 ← nextStep g (action_r1 i) (action_r2 i);
  Some (updateBirdGame (renderTubes g1 (tube_r0 i) (tube_r1 i))).

(** An event whose tick finds a collision only where one is possible. *)
Definition pixel_event (g : game) (e : event) : Prop :=
  match e with
  | Tick i =>
      gameState g = GAME → collides i = true →
      ∃ g2, beforeCheckCollision g i = Some g2 ∧ collision_possible g2 = true
  | _ => True
  end.

(** The states of the game that a session reaches when the collisions are
    found by the pixel test; the draws are arbitrary. *)
Inductive pixel_session : game → Prop :=
  | pixel_session_initial : pixel_session initial_game
  | pixel_session_react g e g' :
      pixel_session g → pixel_event g e → react g e = Some g' →
      pixel_session g'.

(** What holds of the frame buffer in these states. While [tubes[i]] is the
    target it has not passed the bird, and the buffer has a frame for every
    pixel that the target has come nearer than 33, unless it has 6 frames
    already; once a tube has been passed in a game the buffer has 6 frames.
    Before the first tick of a game the tubes are where [startGame] puts
    them. *)
Definition buffer_inv (g : game) : Prop :=
  let x0 := tube_x (tubes_0 g) in
  let x1 := tube_x (tubes_1 g) in
  let len := Z.of_nat (length (frameBuffer (mind g))) in
  match gameState g with
  | HI_SCORE => False
  | GAME_OVER => targetTubeIndex (mind g) = Some (-1)
  | HOME | GAME =>
      tubes_spaced x0 x1
      ∧ (1 ≤ score g → 6 ≤ len)
      ∧ ((targetTubeIndex (mind g) = Some 0
          ∧ 2 ≤ x0 ∧ (x0 < x1 ∨ x1 ≤ 0) ∧ (6 ≤ len ∨ 33 ≤ len + x0))
         ∨ (targetTubeIndex (mind g) = Some 1
            ∧ 1 ≤ x1 ∧ (x1 < x0 ∨ x0 ≤ 1) ∧ (6 ≤ len ∨ 33 ≤ len + x1))
         ∨ (targetTubeIndex (mind g) ≠ Some 0
            ∧ targetTubeIndex (mind g) ≠ Some 1
            ∧ x0 = 48 ∧ x1 = 67 ∧ score g = 0))
  end.

(** A call [rewardTheBird(reward, wasSuccessful)] on the variables [b] that
    finds at least 6 frames and leaves exactly the last 5 of them. *)
Definition keeps_final_five (b : brain) (reward : Q) (ok : bool) : Prop :=
  (6 ≤ length (frameBuffer b))%nat
  ∧ ∃ b', rewardTheBird b reward ok = Some b'
          ∧ frameBuffer b' = drop (length (frameBuffer b) - 5) (frameBuffer b)
          ∧ length (frameBuffer b') = 5%nat
          ∧ episodeFrameCount b' = 0%nat.

(** The game 46 ticks after the first key press: [tubes[0]], the target so
    far, is at 2 and the next tick finds it passed. *)
Definition game_passed : game := default game_started (play 46 game_started).

(** * Properties *)

(** ** Lemmas on the table operations *)

Example key_example :
  config_key (mkState (-140) 21 3) JUMP = "3,-140,21,1".
Proof. reflexivity. Qed.


Lemma getQ_table_get T s a : getQ T s a = table_get T s a.
Proof. unfold getQ, table_get. by destruct (T !! config_key s a). Qed.

Lemma setQ_table_add T s a r : setQ T s a r = table_add T s a r.
Proof.
  unfold setQ, table_add, table_get.
  destruct (T !! config_key s a) as [v|] eqn:E; simpl.
  - by rewrite E.
  - rewrite lookup_insert_eq. by rewrite insert_insert_eq.
Qed.

Lemma getQ_setQ T s a r : getQ (setQ T s a r) s a = (getQ T s a + r)%Q.
Proof.
  rewrite setQ_table_add, !getQ_table_get. unfold table_add at 1.
  unfold table_get at 1. by rewrite lookup_insert_eq.
Qed.

Lemma getQ_setQ_other T s a r s' a' :
  config_key s a ≠ config_key s' a' →
  getQ (setQ T s a r) s' a' = getQ T s' a'.
Proof.
  intros Hne. rewrite setQ_table_add, !getQ_table_get.
  unfold table_add, table_get. by rewrite lookup_insert_ne.
Qed.

(** Distinct state-action pairs have distinct keys. *)
Lemma comma_split (a a' b b' : string) :
  no_comma a → no_comma a' →
  a +:+ "," +:+ b = a' +:+ "," +:+ b' → a = a' ∧ b = b'.
Proof.
  revert a'. induction a as [|c a IH]; intros [|c' a'] Ha Ha' Heq;
    cbn in Heq, Ha, Ha'.
  - by injection Heq.
  - injection Heq as Hc _. by destruct Ha' as [[] _].
  - injection Heq as Hc _. by destruct Ha as [[] _].
  - injection Heq as -> Heq. destruct Ha as [_ Ha], Ha' as [_ Ha'].
    by destruct (IH a' Ha Ha' Heq) as [-> ->].
Qed.

Lemma pretty_N_go_no_comma (x : N) (s : string) :
  no_comma s → no_comma (pretty_N_go x s).
Proof.
  revert s. induction (N.lt_wf_0 x) as [x _ IH]. intros s Hs.
  destruct (decide (x = 0)%N) as [->|Hx]; [by rewrite pretty_N_go_0|].
  rewrite pretty_N_go_step by lia. apply IH.
  - apply N.div_lt; lia.
  - split; [|done]. unfold pretty_N_char. by repeat case_match.
Qed.

Lemma pretty_Z_no_comma (z : Z) : no_comma (pretty z).
Proof.
  assert (∀ p : positive, no_comma (pretty p)) as Hpos.
  { intros p. unfold pretty, pretty_positive, pretty, pretty_N.
    case_decide; [done|]. by apply pretty_N_go_no_comma. }
  destruct z as [|p|p]; [done | apply Hpos |].
  split; [done | apply Hpos].
Qed.

Lemma config_key_inj s a s' a' :
  config_key s a = config_key s' a' → s = s' ∧ a = a'.
Proof.
  unfold config_key. intros H.
  apply comma_split in H as [Hd H]; try apply pretty_Z_no_comma.
  apply comma_split in H as [Hs H]; try apply pretty_Z_no_comma.
  apply comma_split in H as [Hx Ha]; try apply pretty_Z_no_comma.
  apply (inj pretty) in Hd, Hs, Hx, Ha.
  destruct s, s'; simplify_eq/=. split; [done|]. by destruct a, a'.
Qed.

(** [setQ] changes the estimate of its own pair only. *)
Lemma getQ_setQ_other_pair T s a r s' a' :
  (s, a) ≠ (s', a') → getQ (setQ T s a r) s' a' = getQ T s' a'.
Proof.
  intros Hne. apply getQ_setQ_other. intros Hkey.
  apply config_key_inj in Hkey as [-> ->]. done.
Qed.

Lemma Math_max_Qmax a b : JS.Math_max a b = Qmax a b.
Proof.
  unfold JS.Math_max, JS.Qltb, Qmax, GenericMinMax.gmax.
  by destruct (a ?= b)%Q.
Qed.

Lemma updateValue_td_delta T reward ok c next :
  updateValue T reward ok c (env next) = td_delta T reward ok c next.
Proof.
  unfold updateValue, td_delta. by rewrite Math_max_Qmax, !getQ_table_get.
Qed.

(** ** The walk of [rewardTheBird] *)

Lemma walk_indices_S (k n : nat) :
  (fun j => S k - 1 - j)%nat <$> seq 0 (Nat.min (S k) (S n))
  = k :: ((fun j => k - 1 - j)%nat <$> seq 0 (Nat.min k n)).
Proof.
  rewrite <- Nat.succ_min_distr. cbn [seq fmap list_fmap].
  f_equal; [lia|]. rewrite <- fmap_S_seq, <- list_fmap_compose.
  apply list_fmap_ext. intros _ j _. simpl. lia.
Qed.

(** The loop is the fold of the visits over the indices [k - 1], [k - 2],
    ..., as long as the entry after the first visited one exists. *)
Lemma rewardTheBird_loop_fold fb reward ok k : ∀ n T,
  (k < length fb)%nat →
  rewardTheBird_loop fb reward ok k n T
  = Some (foldl (assignCredit_visit fb reward ok) T
            ((fun j => k - 1 - j)%nat <$> seq 0 (Nat.min k n))).
Proof.
  induction k as [|i IH]; intros n T Hk; [done|].
  destruct n as [|n]; [by rewrite Nat.min_0_r|].
  rewrite walk_indices_S. cbn [rewardTheBird_loop foldl].
  destruct (lookup_lt_is_Some_2 fb i) as [c Hc]; [lia|].
  destruct (lookup_lt_is_Some_2 fb (i + 1)) as [f Hf]; [lia|].
  rewrite Hc, Hf. cbn [mbind option_bind]. rewrite IH by lia.
  do 2 f_equal. unfold assignCredit_visit.
  rewrite <- Nat.add_1_r, Hc, Hf.
  by rewrite setQ_table_add, updateValue_td_delta.
Qed.

(** [rewardTheBird] never throws. *)
Lemma rewardTheBird_loop_total fb reward ok k n T :
  (k = length fb - 1)%nat → is_Some (rewardTheBird_loop fb reward ok k n T).
Proof.
  intros ->. destruct fb as [|c fb]; [by destruct n|].
  rewrite rewardTheBird_loop_fold; [done | simpl; lia].
Qed.

Lemma rewardTheBird_total b reward ok : is_Some (rewardTheBird b reward ok).
Proof.
  unfold rewardTheBird.
  destruct (rewardTheBird_loop_total (frameBuffer b) reward ok
              (length (frameBuffer b) - 1)
              (Nat.max minFramSize (episodeFrameCount b)) (Q_table b) eq_refl)
    as [T HT].
  by rewrite HT.
Qed.

(** C1. On a buffer with at least two entries [rewardTheBird] returns, and
    the table it leaves is the one of the walk of the design document: the
    visits start at the second-most-recent entry (index [len - 2]) and go
    backward for [min (len - 1) (max 5 steps)] entries, each visit adds
    [alpha * (rewardForState + gamma * optimalFuture - get(state, action))]
    to the estimate of the visited pair, with [alpha = 1/10], [gamma = 8/10]
    and [optimalFuture] the larger of the two estimates of the next entry;
    the index of the most recent entry is not visited, and on a successful
    episode [rewardForState] is [baseReward - |verticalDeviation|]. *)
Theorem rewardTheBird_is_assignCredit (b : brain) (reward : Q) (ok : bool) :
  (2 ≤ length (frameBuffer b))%nat →
  let len := length (frameBuffer b) in
  let window := Nat.max 5 (episodeFrameCount b) in
  (∃ b', rewardTheBird b reward ok = Some b'
         ∧ Q_table b' = assignCredit_table (frameBuffer b)
                          (episodeFrameCount b) reward ok (Q_table b))
  ∧ head (walk_indices len window) = Some (len - 2)%nat
  ∧ length (walk_indices len window) = Nat.min (len - 1) window
  ∧ (∀ j i, walk_indices len window !! j = Some i → i = (len - 2 - j)%nat)
  ∧ ((len - 1)%nat ∉ walk_indices len window)
  ∧ (∀ T visited next,
       let delta := td_delta T reward ok visited next in
       table_get (table_add T (env visited) (act visited) delta)
         (env visited) (act visited)
       = (table_get T (env visited) (act visited) + delta)%Q
       ∧ delta = ((1 # 10) * (rewardForState reward ok (env visited) (act visited)
                    + (8 # 10) * Qmax (table_get T (env next) STAY)
                                      (table_get T (env next) JUMP)
                    - table_get T (env visited) (act visited)))%Q)
  ∧ (∀ s a, rewardForState reward true s a
            = (reward - inject_Z (Z.abs (diffY s)))%Q).
Proof.
  intros Hlen len window. repeat split.
  - unfold rewardTheBird.
    rewrite rewardTheBird_loop_fold by (fold len; lia).
    cbn [mbind option_bind]. eexists; split; [reflexivity|]. simpl.
    unfold assignCredit_table, walk_indices, minFramSize. fold len.
    f_equal. apply list_fmap_ext. intros _ j _. lia.
  - unfold walk_indices.
    destruct (Nat.min (len - 1) window) as [|m] eqn:E; [subst window; lia|].
    simpl. f_equal. lia.
  - unfold walk_indices. by rewrite length_fmap, length_seq.
  - intros j i. unfold walk_indices. rewrite list_lookup_fmap.
    intros H. apply fmap_Some in H as (j' & Hj' & ->).
    apply lookup_seq in Hj' as [-> _]. done.
  - unfold walk_indices. intros H. apply list_elem_of_fmap in H as (j & Hj & _).
    lia.
  - unfold table_add. unfold table_get at 1. by rewrite lookup_insert_eq.
Qed.

Lemma rewardTheBird_is_assignCredit_witness :
  ∃ b', rewardTheBird brain3 5%Q true = Some b'
        ∧ Q_table b' = assignCredit_table (frameBuffer brain3)
                         (episodeFrameCount brain3) 5%Q true (Q_table brain3).
Proof.
  apply (rewardTheBird_is_assignCredit brain3 5%Q true). simpl. lia.
Defined.

(** The end-to-end scenario: on [[(S1, Stay), (S2, Jump), (S3, Stay)]] with
    reward 5 and a success, (S2, Jump) gets [0.1 * (5 - 0)], (S1, Stay)
    gets [0.1 * (5 - 3 + 0.8 * 0.5)] and (S3, Stay) stays absent. *)
Example rewardTheBird_scenario :
  ∃ b', rewardTheBird brain3 5%Q true = Some b'
        ∧ (getQ (Q_table b') S2 JUMP == 1 # 2)%Q
        ∧ (getQ (Q_table b') S1 STAY == 6 # 25)%Q
        ∧ Q_table b' !! config_key S3 STAY = None.
Proof. eexists. split; [reflexivity|]. by vm_compute. Qed.

(** ** Failure shaping *)

(** C2, as stated, fails: with a deviation of exactly [theta = 1] above the
    line and a jump, a failed episode of reward 100 gives [-(100 - 1)],
    where "by more than theta" gives [1/2]. *)
Lemma rewardForState_counterexample :
  (rewardForState 100 false (mkState 0 10 1) JUMP == - (99))%Q
  ∧ (shaping_by_more_than_theta 100 false (mkState 0 10 1) JUMP == 1 # 2)%Q
  ∧ ¬ (rewardForState 100 false (mkState 0 10 1) JUMP
       == shaping_by_more_than_theta 100 false (mkState 0 10 1) JUMP)%Q.
Proof. by vm_compute. Qed.

(** C2, amended. On a failed episode the reward of a visited entry is
    negated when the deviation is at least [theta = 1] above the line and
    the action was Jump, or at least [theta] below it and the action was
    Stay; it is [1/2] in every other case. On a successful episode it is
    [baseReward - |verticalDeviation|]. *)
Theorem rewardForState_shaping (reward : Q) (s : env_state) (a : action) :
  let unshaped := (reward - inject_Z (Z.abs (diffY s)))%Q in
  rewardForState reward true s a = unshaped
  ∧ rewardForState reward false s a
    = if bool_decide ((1 ≤ diffY s ∧ a = JUMP) ∨ (diffY s ≤ -1 ∧ a = STAY))
      then (- unshaped)%Q else (1 # 2)%Q.
Proof.
  unfold rewardForState, theta, JS.Math_abs. cbn [negb]. split; [done|].
  destruct a.
  - rewrite (bool_decide_eq_false_2 (STAY = JUMP)) by done.
    rewrite (bool_decide_eq_true_2 (STAY = STAY)) by done.
    rewrite andb_false_r, andb_true_r.
    destruct (Z.leb_spec (diffY s) (Z.opp 1)); case_bool_decide;
      try done; exfalso; intuition (done || lia).
  - rewrite (bool_decide_eq_true_2 (JUMP = JUMP)) by done.
    rewrite (bool_decide_eq_false_2 (JUMP = STAY)) by done.
    rewrite andb_false_r, andb_true_r.
    destruct (Z.leb_spec 1 (diffY s)); case_bool_decide;
      try done; exfalso; intuition (done || lia).
Qed.

(** ** Buffers of fewer than two entries *)

(** C6. With 0 or 1 entries in the buffer the walk visits no index,
    [rewardTheBird] returns (it does not throw) and the table is the one
    before the call, for any reward and success flag. *)
Theorem rewardTheBird_short_buffer (b : brain) (reward : Q) (ok : bool) :
  (length (frameBuffer b) ≤ 1)%nat →
  walk_indices (length (frameBuffer b)) (Nat.max 5 (episodeFrameCount b)) = []
  ∧ ∃ b', rewardTheBird b reward ok = Some b' ∧ Q_table b' = Q_table b.
Proof.
  intros Hlen. unfold walk_indices, rewardTheBird.
  replace (length (frameBuffer b) - 1)%nat with 0%nat by lia.
  split; [done|]. simpl. eauto.
Qed.

Lemma rewardTheBird_short_buffer_witness :
  (∃ b', rewardTheBird brain0 100%Q false = Some b' ∧ Q_table b' = Q_table brain0)
  ∧ (∃ b', rewardTheBird brain1 5%Q true = Some b' ∧ Q_table b' = Q_table brain1).
Proof.
  split.
  - apply (rewardTheBird_short_buffer brain0 100%Q false). simpl. lia.
  - apply (rewardTheBird_short_buffer brain1 5%Q true). simpl. lia.
Defined.

(** ** Updates are applied during the walk *)

Lemma table_after_visits_S b reward ok j :
  (j < length (frameBuffer b) - 1)%nat →
  ∃ T, table_after_visits b reward ok j = Some T
       ∧ table_after_visits b reward ok (S j)
         = Some (assignCredit_visit (frameBuffer b) reward ok T
                   (length (frameBuffer b) - 2 - j)).
Proof.
  intros Hj. unfold table_after_visits.
  rewrite !rewardTheBird_loop_fold by lia.
  eexists; split; [reflexivity|]. f_equal.
  rewrite !Nat.min_r by lia. rewrite seq_S, fmap_app, foldl_app. simpl.
  f_equal. lia.
Qed.

(** C9. Let the visits number [j] and [j + 1] of one call both happen, on
    the entries [next] and [visited] (the entry just before [next]). The
    visit of [next] has added its correction to the estimate of the pair of
    [next] in the table [T1]; the visit of [visited] computes its
    [optimalFutureValue] from that table [T1], not from the table of the
    start of the call. *)
Theorem optimalFuture_reads_updated_table (b : brain) (reward : Q) (ok : bool)
    (j : nat) :
  let fb := frameBuffer b in
  let len := length fb in
  (S j < len - 1)%nat →
  ∃ T0 T1 after next visited,
    fb !! (len - 1 - j)%nat = Some after
    ∧ fb !! (len - 2 - j)%nat = Some next
    ∧ fb !! (len - 3 - j)%nat = Some visited
    ∧ table_after_visits b reward ok j = Some T0
    ∧ table_after_visits b reward ok (S j) = Some T1
    ∧ getQ T1 (env next) (act next)
      = (getQ T0 (env next) (act next)
         + updateValue T0 reward ok next (env after))%Q
    ∧ table_after_visits b reward ok (S (S j))
      = Some (setQ T1 (env visited) (act visited)
                (alpha * (rewardForState reward ok (env visited) (act visited)
                          + gamma * JS.Math_max (getQ T1 (env next) STAY)
                                                (getQ T1 (env next) JUMP)
                          - getQ T1 (env visited) (act visited)))%Q).
Proof.
  intros fb len Hj.
  destruct (lookup_lt_is_Some_2 fb (len - 1 - j)) as [after Ha]; [lia|].
  destruct (lookup_lt_is_Some_2 fb (len - 2 - j)) as [next Hn]; [lia|].
  destruct (lookup_lt_is_Some_2 fb (len - 3 - j)) as [visited Hv]; [lia|].
  destruct (table_after_visits_S b reward ok j) as (T0 & HT0 & HT1);
    [fold fb len; lia|].
  destruct (table_after_visits_S b reward ok (S j)) as (T1 & HT1' & HT2);
    [fold fb len; lia|].
  fold fb len in HT1, HT2.
  assert (Hvisit0 : assignCredit_visit fb reward ok T0 (len - 2 - j)
                    = setQ T0 (env next) (act next)
                        (updateValue T0 reward ok next (env after))).
  { unfold assignCredit_visit. rewrite Hn.
    replace (S (len - 2 - j)) with (len - 1 - j)%nat by lia. rewrite Ha.
    by rewrite setQ_table_add, updateValue_td_delta. }
  assert (HT1eq : T1 = setQ T0 (env next) (act next)
                         (updateValue T0 reward ok next (env after))).
  { rewrite HT1, Hvisit0 in HT1'. congruence. }
  exists T0, T1, after, next, visited. repeat split; try done.
  - rewrite HT1eq. apply getQ_setQ.
  - rewrite HT2. f_equal. unfold assignCredit_visit.
    replace (len - 2 - S j)%nat with (len - 3 - j)%nat by lia. rewrite Hv.
    replace (S (len - 3 - j)) with (len - 2 - j)%nat by lia. rewrite Hn.
    rewrite setQ_table_add, <- updateValue_td_delta. done.
Qed.

Lemma optimalFuture_reads_updated_table_witness :
  ∃ T0 T1 after next visited,
    frameBuffer brain3 !! 2%nat = Some after
    ∧ frameBuffer brain3 !! 1%nat = Some next
    ∧ frameBuffer brain3 !! 0%nat = Some visited
    ∧ table_after_visits brain3 5%Q true 0 = Some T0
    ∧ table_after_visits brain3 5%Q true 1 = Some T1
    ∧ getQ T1 (env next) (act next)
      = (getQ T0 (env next) (act next)
         + updateValue T0 5%Q true next (env after))%Q
    ∧ table_after_visits brain3 5%Q true 2
      = Some (setQ T1 (env visited) (act visited)
                (alpha * (rewardForState 5%Q true (env visited) (act visited)
                          + gamma * JS.Math_max (getQ T1 (env next) STAY)
                                                (getQ T1 (env next) JUMP)
                          - getQ T1 (env visited) (act visited)))%Q).
Proof.
  apply (optimalFuture_reads_updated_table brain3 5%Q true 0). simpl. lia.
Defined.

(** On the sample buffer the second visit reads the estimate [1/2] that the
    first visit has just written for (S2, Jump): the estimate of (S1, Stay)
    becomes [6/25], where the table of the start of the call (all zero)
    would have given [1/5]. *)
Example second_visit_sees_first_update :
  ∃ b', rewardTheBird brain3 5%Q true = Some b'
        ∧ (getQ (Q_table b') S1 STAY == 6 # 25)%Q
        ∧ (updateValue (Q_table brain3) 5%Q true (mkFrame S1 STAY) S2 == 1 # 5)%Q.
Proof. eexists. split; [reflexivity|]. by vm_compute. Qed.

(** ** The frame buffer after [rewardTheBird] *)

Lemma rewardTheBird_buffer_after (b : brain) (reward : Q) (ok : bool) :
  ∃ b', rewardTheBird b reward ok = Some b'
        ∧ frameBuffer b'
          = drop (Nat.max (length (frameBuffer b) - 5) 1) (frameBuffer b)
        ∧ length (frameBuffer b') = Nat.min 5 (length (frameBuffer b) - 1)
        ∧ episodeFrameCount b' = 0%nat
        ∧ targetTubeIndex b' = targetTubeIndex b
        ∧ targetTube b' = targetTube b.
Proof.
  unfold rewardTheBird.
  destruct (rewardTheBird_loop_total (frameBuffer b) reward ok
              (length (frameBuffer b) - 1)
              (Nat.max minFramSize (episodeFrameCount b)) (Q_table b) eq_refl)
    as [T HT].
  rewrite HT. cbn [mbind option_bind]. eexists; split; [reflexivity|].
  cbn [frameBuffer episodeFrameCount targetTubeIndex targetTube].
  unfold minFramSize.
  replace (Z.to_nat (Z.max (Z.of_nat (length (frameBuffer b))
                            - Z.of_nat 5) 1))
    with (Nat.max (length (frameBuffer b) - 5) 1) by lia.
  repeat split. rewrite length_drop. lia.
Qed.

(** On variables set by hand to a buffer of exactly five entries, which no
    game produces, the call keeps the last four of them and drops the
    oldest one: the start of the slice is [Math.max(5 - 5, 1) = 1]. *)
Example rewardTheBird_five_entries_keeps_four :
  length (frameBuffer brain5) = 5%nat
  ∧ ∃ b', rewardTheBird brain5 5%Q true = Some b'
          ∧ frameBuffer b' = drop 1 (frameBuffer brain5)
          ∧ length (frameBuffer b') = 4%nat
          ∧ episodeFrameCount b' = 0%nat.
Proof.
  split; [reflexivity|].
  destruct (rewardTheBird_buffer_after brain5 5%Q true)
    as (b' & Hb' & Hfb & Hlen & Hcount & _).
  exists b'. by repeat split.
Qed.

(** ** Ceilings of scaled draws *)

Lemma inject_Z_pred (c : Z) : (inject_Z (c - 1) == inject_Z c - 1)%Q.
Proof. unfold Z.sub. rewrite inject_Z_plus, inject_Z_opp. reflexivity. Qed.

Lemma Qceiling_eq_iff (x : Q) (c : Z) :
  Qceiling x = c ↔ (inject_Z c - 1 < x ∧ x <= inject_Z c)%Q.
Proof.
  split.
  - intros <-. split; [|apply Qle_ceiling].
    rewrite <- inject_Z_pred. apply Qceiling_lt.
  - intros [H1 H2].
    pose proof (Qceiling_lt x) as H3. pose proof (Qle_ceiling x) as H4.
    rewrite inject_Z_pred in H3.
    assert (inject_Z (Qceiling x - 1) < inject_Z c)%Q as H5
      by (rewrite inject_Z_pred; lra).
    assert (inject_Z (c - 1) < inject_Z (Qceiling x))%Q as H6
      by (rewrite inject_Z_pred; lra).
    rewrite <- Zlt_Qlt in H5, H6. lia.
Qed.

Lemma Qceiling_bounds (x : Q) (lo hi : Z) :
  (inject_Z lo < x)%Q → (x <= inject_Z hi)%Q → lo < Qceiling x <= hi.
Proof.
  intros Hlo Hhi.
  pose proof (Qceiling_lt x) as H3. pose proof (Qle_ceiling x) as H4.
  rewrite inject_Z_pred in H3.
  assert (inject_Z lo < inject_Z (Qceiling x))%Q as H5 by lra.
  assert (inject_Z (Qceiling x - 1) < inject_Z hi)%Q as H6
    by (rewrite inject_Z_pred; lra).
  rewrite <- Zlt_Qlt in H5, H6. lia.
Qed.

(** The random decision is taken when the ceiling is 0 or 90001. *)
Lemma takeRandomDecision_zero_iff (r1 : Q) :
  (0 <= r1)%Q → (r1 < 1)%Q →
  takeRandomDecision r1 = 0
  ↔ (r1 == 0 ∨ (90000 # 100000 < r1 ∧ r1 <= 90001 # 100000))%Q.
Proof.
  intros H0 H1. unfold takeRandomDecision, JS.rem, JS.Math_ceil.
  assert (-1 < Qceiling (r1 * 100000) <= 100000) as Hc
    by (apply Qceiling_bounds; unfold inject_Z; lra).
  rewrite Z.rem_mod_nonneg by lia. split.
  - intros Hm. apply Z.mod_divide in Hm; [|lia]. destruct Hm as [q Hq].
    assert (Qceiling (r1 * 100000) = 0 ∨ Qceiling (r1 * 100000) = 90001)
      as Hcases by lia.
    rewrite !Qceiling_eq_iff in Hcases. unfold inject_Z in Hcases.
    destruct Hcases as [Hq'|Hq'].
    + left. apply Qle_antisym; lra.
    + right. lra.
  - intros Hr.
    assert (Qceiling (r1 * 100000) = 0 ∨ Qceiling (r1 * 100000) = 90001)
      as Hcases.
    { rewrite !Qceiling_eq_iff. unfold inject_Z.
      destruct Hr as [Hr|Hr]; [left; rewrite Hr | right]; lra. }
    by destruct Hcases as [-> | ->].
Qed.

(** The tie break jumps when the ceiling is a multiple of 25. *)
Lemma tie_break_jump_iff (r2 : Q) :
  (0 <= r2)%Q → (r2 < 1)%Q →
  JS.rem (JS.Math_ceil (r2 * 100)) 25 = 0
  ↔ (r2 == 0 ∨ (24 # 100 < r2 ∧ r2 <= 25 # 100)
     ∨ (49 # 100 < r2 ∧ r2 <= 50 # 100) ∨ (74 # 100 < r2 ∧ r2 <= 75 # 100)
     ∨ 99 # 100 < r2)%Q.
Proof.
  intros H0 H1. unfold JS.rem, JS.Math_ceil.
  assert (-1 < Qceiling (r2 * 100) <= 100) as Hc
    by (apply Qceiling_bounds; unfold inject_Z; lra).
  rewrite Z.rem_mod_nonneg by lia. split.
  - intros Hm. apply Z.mod_divide in Hm; [|lia]. destruct Hm as [q Hq].
    assert (Qceiling (r2 * 100) = 0 ∨ Qceiling (r2 * 100) = 25
            ∨ Qceiling (r2 * 100) = 50 ∨ Qceiling (r2 * 100) = 75
            ∨ Qceiling (r2 * 100) = 100) as Hcases by lia.
    rewrite !Qceiling_eq_iff in Hcases. unfold inject_Z in Hcases.
    destruct Hcases as [Hq'|[Hq'|[Hq'|[Hq'|Hq']]]].
    + left. apply Qle_antisym; lra.
    + right; left; lra.
    + do 2 right; left; lra.
    + do 3 right; left; lra.
    + do 4 right; lra.
  - intros Hr.
    assert (Qceiling (r2 * 100) = 0 ∨ Qceiling (r2 * 100) = 25
            ∨ Qceiling (r2 * 100) = 50 ∨ Qceiling (r2 * 100) = 75
            ∨ Qceiling (r2 * 100) = 100) as Hcases.
    { rewrite !Qceiling_eq_iff. unfold inject_Z.
      destruct Hr as [Hr|[Hr|[Hr|[Hr|Hr]]]];
        [left; rewrite Hr | right; left | do 2 right; left
        | do 3 right; left | do 4 right]; lra. }
    by destruct Hcases as [->|[->|[->|[->| ->]]]].
Qed.

Lemma Qltb_true_iff (a b : Q) : JS.Qltb a b = true ↔ (a < b)%Q.
Proof.
  unfold JS.Qltb. rewrite Qlt_alt. by destruct (a ?= b)%Q.
Qed.

Lemma Qltb_false_iff (a b : Q) : JS.Qltb a b = false ↔ (b <= a)%Q.
Proof.
  rewrite <- not_true_iff_false, Qltb_true_iff. split.
  - apply Qnot_lt_le.
  - intros ? ?. lra.
Qed.

Lemma Pos_iter_ext {A} (f g : A → A) (n : positive) :
  (∀ x, f x = g x) → ∀ x, Pos.iter f x n = Pos.iter g x n.
Proof.
  intros H. induction n as [n IH|n IH|]; intros x; simpl.
  - by rewrite H, !IH.
  - by rewrite !IH.
  - apply H.
Qed.

Lemma frequency_ext (n : positive) (e1 e2 : Q → bool) :
  (∀ r, e1 r = e2 r) → frequency n e1 = frequency n e2.
Proof.
  intros H. unfold frequency, count_cells. do 2 f_equal.
  apply Pos_iter_ext. intros st. by rewrite H.
Qed.

Lemma takeRandomDecision_frequency :
  (frequency 100000 (fun r1 => takeRandomDecision r1 =? 0) == 1 # 100000)%Q.
Proof. by vm_compute. Qed.

(** ** The greedy choice and the tie break *)

Lemma getAction_greedy T s r1 r2 :
  takeRandomDecision r1 ≠ 0 →
  getAction T s r1 r2
  = if JS.Qltb (getQ T s JUMP) (getQ T s STAY) then STAY
    else if JS.Qltb (getQ T s STAY) (getQ T s JUMP) then JUMP
    else if JS.rem (JS.Math_ceil (r2 * 100)) 25 =? 0 then JUMP else STAY.
Proof.
  intros Hr. unfold getAction.
  by destruct (Z.eqb_spec (takeRandomDecision r1) 0).
Qed.

Lemma getAction_tie T s r1 r2 :
  takeRandomDecision r1 ≠ 0 → (getQ T s STAY == getQ T s JUMP)%Q →
  getAction T s r1 r2
  = if JS.rem (JS.Math_ceil (r2 * 100)) 25 =? 0 then JUMP else STAY.
Proof.
  intros Hr Htie. rewrite getAction_greedy by done.
  assert (JS.Qltb (getQ T s JUMP) (getQ T s STAY) = false) as ->
    by (apply Qltb_false_iff; lra).
  assert (JS.Qltb (getQ T s STAY) (getQ T s JUMP) = false) as ->
    by (apply Qltb_false_iff; lra).
  done.
Qed.

Lemma tie_break_frequency :
  (frequency 100 (fun r2 => JS.rem (JS.Math_ceil (r2 * 100)) 25 =? 0)
   == 1 # 25)%Q
  ∧ (frequency 100 (fun r2 => negb (JS.rem (JS.Math_ceil (r2 * 100)) 25 =? 0))
     == 24 # 25)%Q.
Proof. split; by vm_compute. Qed.

(** C5. When the random decision is not taken: a strictly greater estimate
    decides the action, whatever the second draw; on a tie (an unvisited
    state, with both estimates absent, is one) the action is Jump exactly
    when the second draw is 0 or lies in one of the four cells
    (24/100, 25/100], (49/100, 50/100], (74/100, 75/100], (99/100, 1) of the
    hundred cells of the unit interval, that is with probability 4/100 =
    1/25, and Stay otherwise, with probability 24/25. *)
Theorem getAction_greedy_and_tie_break (T : gmap string Q) (s : env_state)
    (r1 r2 : Q) :
  takeRandomDecision r1 ≠ 0 → (0 <= r2)%Q → (r2 < 1)%Q →
  ((getQ T s JUMP < getQ T s STAY)%Q → getAction T s r1 r2 = STAY)
  ∧ ((getQ T s STAY < getQ T s JUMP)%Q → getAction T s r1 r2 = JUMP)
  ∧ ((getQ T s STAY == getQ T s JUMP)%Q →
       (getAction T s r1 r2 = JUMP
        ↔ (r2 == 0 ∨ (24 # 100 < r2 ∧ r2 <= 25 # 100)
           ∨ (49 # 100 < r2 ∧ r2 <= 50 # 100)
           ∨ (74 # 100 < r2 ∧ r2 <= 75 # 100) ∨ 99 # 100 < r2)%Q)
       ∧ (frequency 100 (fun r => bool_decide (getAction T s r1 r = JUMP))
          == 1 # 25)%Q
       ∧ (frequency 100 (fun r => bool_decide (getAction T s r1 r = STAY))
          == 24 # 25)%Q)
  ∧ (T !! config_key s STAY = None → T !! config_key s JUMP = None →
     (getQ T s STAY == getQ T s JUMP)%Q).
Proof.
  intros Hr H0 H1. split; [|split; [|split]].
  - intros Hlt. rewrite getAction_greedy by done.
    apply Qltb_true_iff in Hlt. by rewrite Hlt.
  - intros Hlt. rewrite getAction_greedy by done.
    assert (JS.Qltb (getQ T s JUMP) (getQ T s STAY) = false) as ->
      by (apply Qltb_false_iff; lra).
    apply Qltb_true_iff in Hlt. by rewrite Hlt.
  - intros Htie. split; [|split].
    + rewrite getAction_tie, <- tie_break_jump_iff by done.
      by destruct (Z.eqb_spec (JS.rem (JS.Math_ceil (r2 * 100)) 25) 0).
    + rewrite (frequency_ext 100 _
                 (fun r => JS.rem (JS.Math_ceil (r * 100)) 25 =? 0)).
      * apply tie_break_frequency.
      * intros r. rewrite getAction_tie by done.
        by destruct (JS.rem (JS.Math_ceil (r * 100)) 25 =? 0).
    + rewrite (frequency_ext 100 _
                 (fun r => negb (JS.rem (JS.Math_ceil (r * 100)) 25 =? 0))).
      * apply tie_break_frequency.
      * intros r. rewrite getAction_tie by done.
        by destruct (JS.rem (JS.Math_ceil (r * 100)) 25 =? 0).
  - intros Hs Hj. unfold getQ. by rewrite Hs, Hj.
Qed.

Lemma getAction_greedy_and_tie_break_witness :
  (getAction ∅ S1 (1 # 2) (1 # 4) = JUMP
   ↔ ((1 # 4) == 0 ∨ (24 # 100 < 1 # 4 ∧ 1 # 4 <= 25 # 100)
      ∨ (49 # 100 < 1 # 4 ∧ 1 # 4 <= 50 # 100)
      ∨ (74 # 100 < 1 # 4 ∧ 1 # 4 <= 75 # 100) ∨ 99 # 100 < 1 # 4)%Q)
  ∧ (frequency 100 (fun r => bool_decide (getAction ∅ S1 (1 # 2) r = JUMP))
     == 1 # 25)%Q
  ∧ (frequency 100 (fun r => bool_decide (getAction ∅ S1 (1 # 2) r = STAY))
     == 24 # 25)%Q.
Proof.
  apply (getAction_greedy_and_tie_break ∅ S1 (1 # 2) (1 # 4)).
  - vm_compute. discriminate.
  - vm_compute. discriminate.
  - reflexivity.
  - reflexivity.
Defined.

(** ** The random decision *)

(** The error of the rounding to a double. *)
Lemma round_half_even_error (a b : Z) :
  0 < b → - b ≤ 2 * (JS.round_half_even a b * b - a) ≤ b.
Proof.
  intros Hb. unfold JS.round_half_even.
  pose proof (Z.div_mod a b ltac:(lia)) as Hdm.
  pose proof (Z.mod_pos_bound a b Hb) as Hr.
  destruct (Z.compare_spec (2 * (a mod b)) b); [destruct (Z.even _)| |]; nia.
Qed.

Lemma binade_upper (n d K : Z) :
  0 < n → 0 < d → 0 ≤ K → n < 2 ^ K * d → JS.binade n d < K.
Proof.
  intros Hn Hd HK Hlt. unfold JS.binade.
  assert (Z.log2 n - Z.log2 d ≤ K) as He.
  { assert (d < 2 ^ (Z.log2 d + 1)) as Hd2
      by (apply Z.log2_lt_pow2; lia).
    assert (n < 2 ^ (K + Z.log2 d + 1)) as Hn2.
    { replace (K + Z.log2 d + 1) with (K + (Z.log2 d + 1)) by lia.
      rewrite Z.pow_add_r by (pose proof (Z.log2_nonneg d); lia).
      assert (0 < 2 ^ K) by (apply Z.pow_pos_nonneg; lia). nia. }
    apply Z.log2_lt_pow2 in Hn2; lia. }
  destruct (Z.leb_spec (d * 2 ^ Z.max (Z.log2 n - Z.log2 d) 0)
              (n * 2 ^ Z.max (- (Z.log2 n - Z.log2 d)) 0)) as [Hle|_]; [|lia].
  destruct (decide (Z.log2 n - Z.log2 d = K)) as [HeK|]; [|lia].
  rewrite HeK in Hle.
  rewrite (Z.max_l K 0), (Z.max_r (- K) 0) in Hle by lia.
  change (2 ^ 0) with 1 in Hle. lia.
Qed.

(** The rounding error of a positive number below 128 is at most half the
    distance [2^-46] of the doubles between 64 and 128. *)
Lemma nearest_double_error (n d : positive) :
  (Z.pos n # d < 128)%Q →
  (- (1 # 2 ^ 47) <= JS.nearest_double (Z.pos n) (Z.pos d) - (Z.pos n # d)
   ∧ JS.nearest_double (Z.pos n) (Z.pos d) - (Z.pos n # d) <= 1 # 2 ^ 47)%Q.
Proof.
  intros Hlt. unfold JS.nearest_double.
  assert (JS.binade (Z.pos n) (Z.pos d) < 7) as HE.
  { apply binade_upper; try lia. revert Hlt. unfold Qlt. cbn. lia. }
  set (u := Z.max _ (-1074)).
  assert (u ≤ -46) as Hu by lia.
  rewrite (Z.max_r u 0), (Z.max_l (- u) 0) by lia.
  change (2 ^ 0) with 1. rewrite !Z.mul_1_r.
  set (P := 2 ^ (- u)).
  assert (2 ^ 46 ≤ P) as HP by (apply Z.pow_le_mono_r; lia).
  pose proof (round_half_even_error (Z.pos n * P) (Z.pos d) ltac:(lia)) as Hm.
  set (m := JS.round_half_even _ _) in *.
  unfold Qle, Qminus, Qplus, Qopp. cbn.
  rewrite !Z2Pos.id by lia.
  change (Z.pos (2 ^ 47)) with (2 * 2 ^ 46). split; nia.
Qed.

Lemma to_double_error (x : Q) :
  (0 <= x)%Q → (x < 128)%Q →
  (- (1 # 2 ^ 47) <= JS.to_double x - x ∧ JS.to_double x - x <= 1 # 2 ^ 47)%Q.
Proof.
  destruct x as [[|n|n] d]; intros H0 H1; unfold JS.to_double; cbn [Qnum Qden].
  - split; by vm_compute.
  - by apply nearest_double_error.
  - by vm_compute in H0.
Qed.

(** X20. In the random decision the draw scaled by 100 is compared with its
    remainder by 4 without a ceiling: Jump is returned only when the
    product, as a double, is one of the multiples 0, 4, ..., 100 of 4, so
    only for a draw whose exact product is within the rounding error
    [2^-47] of such a multiple. *)
Theorem random_decision_jump_near_multiples (T : gmap string Q)
    (s : env_state) (r1 r2 : Q) :
  takeRandomDecision r1 = 0 → (0 <= r2)%Q → (r2 < 1)%Q →
  getAction T s r1 r2 = JUMP →
  ∃ t : Z, 0 ≤ t ≤ 25
    ∧ (JS.to_double (r2 * 100) == inject_Z (4 * t))%Q
    ∧ (inject_Z (4 * t) - (1 # 2 ^ 47) <= r2 * 100)%Q
    ∧ (r2 * 100 <= inject_Z (4 * t) + (1 # 2 ^ 47))%Q.
Proof.
  intros Hr H0 H1. unfold getAction. rewrite Hr. cbn [Z.eqb].
  destruct (Qeq_bool _ _) eqn:E; [intros _|done].
  apply Qeq_bool_iff in E. unfold JS.Qrem in E.
  destruct (to_double_error (r2 * 100)) as [Hlo Hhi]; [lra | lra |].
  set (D := JS.to_double (r2 * 100)) in *.
  set (t := JS.Qtrunc (D / 4)) in *.
  assert (D == inject_Z (4 * t))%Q as HD.
  { rewrite inject_Z_mult. change (inject_Z 4) with 4%Q. lra. }
  exists t. rewrite <- HD. split; [|split; [reflexivity | split; lra]].
  assert (inject_Z (-4) < inject_Z (4 * t))%Q as H5.
  { rewrite <- HD. change (inject_Z (-4)) with (- (4))%Q.
    assert (0 < 1 # 2 ^ 47)%Q by done.
    assert (1 # 2 ^ 47 < 4)%Q by done. lra. }
  assert (inject_Z (4 * t) < inject_Z 104)%Q as H6.
  { rewrite <- HD. change (inject_Z 104) with 104%Q.
    assert (1 # 2 ^ 47 < 4)%Q by done. lra. }
  rewrite <- Zlt_Qlt in H5, H6. lia.
Qed.

(** The double 0.04 as second draw: its product by 100 rounds to 4. *)
Lemma random_decision_jump_near_multiples_witness :
  ∃ t : Z, 0 ≤ t ≤ 25
    ∧ (JS.to_double ((5764607523034235 # 144115188075855872) * 100)
       == inject_Z (4 * t))%Q
    ∧ (inject_Z (4 * t) - (1 # 2 ^ 47)
       <= (5764607523034235 # 144115188075855872) * 100)%Q
    ∧ ((5764607523034235 # 144115188075855872) * 100
       <= inject_Z (4 * t) + (1 # 2 ^ 47))%Q.
Proof.
  apply (random_decision_jump_near_multiples ∅ S1 0
           (5764607523034235 # 144115188075855872)).
  - reflexivity.
  - vm_compute. discriminate.
  - reflexivity.
  - reflexivity.
Defined.

(** The doubles 0.24 and 0.6799999999999999, whose products by 100 round
    to 24 and to 68, give Jump; the draw 1/4 gives Stay. *)
Example random_decision_on_doubles :
  getAction ∅ S1 0 (1080863910568919 # 4503599627370496) = JUMP
  ∧ getAction ∅ S1 0 (3062447746611937 # 4503599627370496) = JUMP
  ∧ getAction ∅ S1 0 (1 # 4) = STAY.
Proof. repeat split; by vm_compute. Qed.

(** C3, as stated, fails. Of the 100000 equally likely cells of the first
    draw the random decision is taken on one, so with probability 1/100000
    and not about 1/9000 (which is more than 1/10000). In the random
    decision the draw 35/1000, whose scaled ceiling 4 is a multiple of 4,
    gives Stay, and of the hundred cells of the second draw none gives
    Jump, where a probability of 1/4 needs 25 of them. *)
Lemma getAction_exploration_counterexample :
  (frequency 100000 (fun r1 => takeRandomDecision r1 =? 0) == 1 # 100000)%Q
  ∧ ¬ (1 # 10000 <= frequency 100000 (fun r1 => takeRandomDecision r1 =? 0))%Q
  ∧ takeRandomDecision (90001 # 100000) = 0
  ∧ getAction ∅ S1 (90001 # 100000) (35 # 1000) = STAY
  ∧ (frequency 100
       (fun r2 => bool_decide (getAction ∅ S1 (90001 # 100000) r2 = JUMP))
     == 0)%Q.
Proof.
  split; [apply takeRandomDecision_frequency|].
  split; [rewrite takeRandomDecision_frequency; by vm_compute|].
  repeat split; by vm_compute.
Qed.

(** C3, amended. For a first draw in the unit interval, the random decision
    is taken exactly when the draw is 0 or lies in the cell
    (90000/100000, 90001/100000], one of the 100000 equally likely cells:
    with probability 1/100000. This does not depend on the table, and once
    the decision is taken the action returned does not depend on the table
    or on the state either. *)
Theorem getAction_random_decision (T : gmap string Q) (s : env_state)
    (r1 r2 : Q) :
  (0 <= r1)%Q → (r1 < 1)%Q →
  (takeRandomDecision r1 = 0
   ↔ (r1 == 0 ∨ (90000 # 100000 < r1 ∧ r1 <= 90001 # 100000))%Q)
  ∧ (frequency 100000 (fun r => takeRandomDecision r =? 0) == 1 # 100000)%Q
  ∧ (takeRandomDecision r1 = 0 →
     ∀ T' s', getAction T' s' r1 r2 = getAction T s r1 r2).
Proof.
  intros H0 H1. split; [by apply takeRandomDecision_zero_iff|]. split.
  - apply takeRandomDecision_frequency.
  - intros Hr T' s'. unfold getAction. by rewrite Hr.
Qed.

Lemma getAction_random_decision_witness :
  takeRandomDecision (90001 # 100000) = 0
  ↔ ((90001 # 100000) == 0
     ∨ (90000 # 100000 < 90001 # 100000
        ∧ 90001 # 100000 <= 90001 # 100000))%Q.
Proof.
  apply (getAction_random_decision ∅ S1 (90001 # 100000) (1 # 2)).
  - vm_compute. discriminate.
  - reflexivity.
Defined.

(** ** The ticks of the game *)

Lemma setTubeY_x static r t : tube_x (setTubeY static r t) = tube_x t.
Proof. unfold setTubeY. by destruct static. Qed.

Lemma moveTube_x static r t :
  tube_x (moveTube static r t)
  = if tube_x t - 1 <=? -6 then 32 else tube_x t - 1.
Proof.
  unfold moveTube. cbn [tube_x].
  destruct (tube_x t - 1 <=? -6); [by rewrite setTubeY_x | done].
Qed.

(** [nextStep] in the state [GAME]: it returns, leaves the tubes where they
    are and sets [targetTubeIndex] to the tube it has taken as target. *)
Lemma nextStep_GAME g r1 r2 :
  gameState g = GAME →
  ∃ g', nextStep g r1 r2 = Some g'
        ∧ gameState g' = GAME
        ∧ tubes_0 g' = tubes_0 g ∧ tubes_1 g' = tubes_1 g
        ∧ targetTubeIndex (mind g') = Some (Z.of_nat (nextTarget g)).
Proof.
  intros HG. unfold nextStep, nextTarget. rewrite HG.
  rewrite bool_decide_eq_true_2 by done. cbn [negb].
  set (m0 := with_targetTube (mind g) 0).
  set (m1 := with_targetTube (mind g) 1).
  destruct (rewardTheBird_buffer_after m0 5 true) as (b0 & Hb0 & _).
  destruct (rewardTheBird_buffer_after m1 5 true) as (b1 & Hb1 & _).
  destruct (_ && _); destruct (bool_decide _); rewrite ?Hb0, ?Hb1;
    cbn [mbind option_bind]; cbn [with_targetTubeIndex targetTube];
    repeat (destruct (_ <? _) || destruct (bool_decide _));
    eexists; (split; [reflexivity|]); by rewrite ?HG.
Qed.

Lemma triggerGameOver_total b :
  ∃ b', triggerGameOver b = Some b' ∧ targetTubeIndex b' = Some (-1).
Proof.
  unfold triggerGameOver.
  destruct (rewardTheBird_buffer_after b 100 false) as (b1 & -> & _).
  cbn [mbind option_bind]. eauto.
Qed.

(** [renderGame]: it returns and moves both tubes one pixel to the left (or
    back to 32); either no collision is found and the state and
    [targetTubeIndex] stay, or the game is over and [targetTubeIndex] is -1. *)
Lemma renderGame_effect g i :
  ∃ g', renderGame g i = Some g'
        ∧ tube_x (tubes_0 g')
          = (if tube_x (tubes_0 g) - 1 <=? -6 then 32 else tube_x (tubes_0 g) - 1)
        ∧ tube_x (tubes_1 g')
          = (if tube_x (tubes_1 g) - 1 <=? -6 then 32 else tube_x (tubes_1 g) - 1)
        ∧ ((gameState g' = gameState g
            ∧ targetTubeIndex (mind g') = targetTubeIndex (mind g))
           ∨ (gameState g' = GAME_OVER
              ∧ targetTubeIndex (mind g') = Some (-1))).
Proof.
  unfold renderGame, checkCollision, updateBirdGame.
  destruct (_ <? 0); destruct (bgLoc_height <? _);
    cbn [mind gameState tubes_0 tubes_1 renderTubes];
    (destruct (collides i);
     [ destruct (triggerGameOver_total (mind g)) as (b' & -> & Hb');
       cbn [mbind option_bind]
     | ]);
    eexists; (split; [reflexivity|]);
    cbn [mind gameState tubes_0 tubes_1]; rewrite !moveTube_x; auto.
Qed.

Lemma moved_tubes_spaced x0 x1 :
  tubes_spaced x0 x1 →
  tubes_spaced (if x0 - 1 <=? -6 then 32 else x0 - 1)
               (if x1 - 1 <=? -6 then 32 else x1 - 1).
Proof.
  unfold tubes_spaced.
  destruct (Z.leb_spec (x0 - 1) (-6)), (Z.leb_spec (x1 - 1) (-6)); lia.
Qed.

(** On spaced tubes, a target farther than 28 pixels is [tubes[0]], still
    at 34 or more. *)
Lemma far_target_is_first g :
  tubes_spaced (tube_x (tubes_0 g)) (tube_x (tubes_1 g)) →
  28 < targetDistance g →
  nextTarget g = 0%nat ∧ 34 ≤ tube_x (tubes_0 g).
Proof.
  unfold tubes_spaced, targetDistance, nextTarget, birdX. cbn [tubes].
  destruct (Z.ltb_spec 5 (tube_x (tubes_0 g) + 3)),
           (Z.ltb_spec (tube_x (tubes_0 g)) (tube_x (tubes_1 g))),
           (Z.ltb_spec (tube_x (tubes_1 g) + 3) 5);
    cbn [andb orb tubes]; lia.
Qed.

Lemma game_inv_initial : game_inv initial_game.
Proof.
  unfold game_inv, tubes_spaced.
  assert (tube_x (tubes_0 initial_game) = 48) as -> by by vm_compute.
  assert (tube_x (tubes_1 initial_game) = 67) as -> by by vm_compute.
  repeat split; try done. lia.
Qed.

Lemma game_inv_react g e g' :
  game_inv g → react g e = Some g' → game_inv g'.
Proof.
  intros (Hhi & Hover & Hplay) Hreact. destruct e as [i|r0 r1|curEnv|T].
  - (* a tick *)
    cbn [react] in Hreact. unfold loop in Hreact.
    destruct (gameState g) eqn:HG; try done.
    + (* HOME *) injection Hreact as <-. unfold game_inv. by rewrite HG.
    + (* GAME *)
      destruct (nextStep_GAME g (action_r1 i) (action_r2 i) HG)
        as (g1 & Hg1 & HG1 & Ht0 & Ht1 & Hidx).
      rewrite Hg1 in Hreact. cbn [mbind option_bind] in Hreact.
      destruct (renderGame_effect g1 i)
        as (g2 & Hg2 & Hx0 & Hx1 & Hcases).
      rewrite Hg2 in Hreact. injection Hreact as <-.
      destruct Hplay as [Hsp Hfar]; [done|].
      rewrite Ht0 in Hx0. rewrite Ht1 in Hx1.
      destruct Hcases as [[HG2 Hidx2]|[HG2 Hidx2]].
      * rewrite HG1 in HG2. unfold game_inv. rewrite HG2, Hx0, Hx1.
        split; [done|]. split; [done|]. intros _.
        split; [by apply moved_tubes_spaced|].
        intros H34. rewrite Hidx2, Hidx.
        assert (nextTarget g = 0%nat) as ->; [|done].
        unfold nextTarget, birdX. cbn [tubes].
        revert H34 Hsp. unfold tubes_spaced.
        destruct (Z.leb_spec (tube_x (tubes_0 g) - 1) (-6)),
                 (Z.ltb_spec 5 (tube_x (tubes_0 g) + 3)),
                 (Z.ltb_spec (tube_x (tubes_0 g)) (tube_x (tubes_1 g)));
          cbn [andb orb]; try done; lia.
      * unfold game_inv. rewrite HG2. by repeat split.
    + (* GAME_OVER *)
      injection Hreact as <-. unfold game_inv, tubes_spaced.
      cbn [gameState with_gameState startGame tubes_0 tubes_1 mind].
      rewrite !setTubeY_x. cbn [tube_x]. rewrite (Hover eq_refl).
      split; [done|]. split; [done|]. intros _. split; [|done].
      left. by vm_compute.
  - (* a key or a touch *)
    injection Hreact as <-. unfold handleUserInteraction.
    destruct (gameState g) eqn:HG; try done.
    + unfold game_inv. cbn [gameState with_gameState tubes_0 tubes_1 mind].
      split; [done|]. split; [done|]. intros _. by apply Hplay.
    + unfold game_inv.
      cbn [gameState with_birdYSpeed tubes_0 tubes_1 mind]. rewrite HG.
      split; [done|]. split; [done|]. intros _. by apply Hplay.
    + unfold game_inv. by rewrite HG.
  - (* the environment selector *)
    injection Hreact as <-. exact (conj Hhi (conj Hover Hplay)).
  - (* a loaded table *)
    injection Hreact as <-. exact (conj Hhi (conj Hover Hplay)).
Qed.

Lemma reachable_game_inv g : reachable g → game_inv g.
Proof.
  induction 1 as [|g e g' _ IH Hreact];
    [apply game_inv_initial | by eapply game_inv_react].
Qed.

(** ** Ticks on which the agent does not act *)

(** C10. On every tick of a session on which the game is not in the state
    [GAME], or on which the tube taken as target is more than 28 pixels
    away, [nextStep] returns early: beyond recording the target (in the
    state [GAME]) it changes nothing. In particular the table, the frame
    buffer, the count of frames and the vertical speed of the bird are the
    ones before the call, and the outcome is the same whatever the draws
    and whatever table is in place: no state is encoded, no action is
    selected and the table is neither read nor written. *)
Theorem nextStep_returns_early (g : game) (r1 r2 : Q) :
  reachable g →
  gameState g ≠ GAME ∨ 28 < targetDistance g →
  ∃ g', nextStep g r1 r2 = Some g'
        ∧ g' = (if bool_decide (gameState g = GAME)
                then with_mind g
                       (with_targetTubeIndex
                          (with_targetTube (mind g) (nextTarget g))
                          (Z.of_nat (nextTarget g)))
                else g)
        ∧ Q_table (mind g') = Q_table (mind g)
        ∧ frameBuffer (mind g') = frameBuffer (mind g)
        ∧ episodeFrameCount (mind g') = episodeFrameCount (mind g)
        ∧ birdYSpeed g' = birdYSpeed g
        ∧ (∀ T r1' r2',
             nextStep (with_Q_table g T) r1' r2' = Some (with_Q_table g' T)).
Proof.
  intros Hreach Hcase.
  destruct (decide (gameState g = GAME)) as [HG|HG].
  - destruct Hcase as [?|Hfar]; [done|].
    destruct (reachable_game_inv g Hreach) as (_ & _ & Hplay).
    destruct Hplay as [Hsp Hidx]; [by rewrite HG|].
    destruct (far_target_is_first g Hsp Hfar) as [Ht H34].
    specialize (Hidx H34).
    assert (Hcond : (birdX <? tube_x (tubes g 0) + 3)
                    && ((tube_x (tubes g 0) <? tube_x (tubes g 1))
                        || (tube_x (tubes g 1) + 3 <? birdX)) = true).
    { revert Ht. unfold nextTarget. by destruct (_ && _). }
    assert (Hdist : (28 <? tube_x (tubes g 0) - birdX) = true).
    { apply Z.ltb_lt. revert Hfar. unfold targetDistance. by rewrite Ht. }
    rewrite bool_decide_eq_true_2 by done. rewrite Ht.
    eexists. split; [|split; [reflexivity|]].
    + unfold nextStep. rewrite bool_decide_eq_true_2 by done. cbn [negb].
      rewrite Hcond. cbn [with_targetTube targetTubeIndex].
      rewrite bool_decide_eq_false_2 by done. cbn [mbind option_bind].
      cbn [with_targetTubeIndex with_targetTube targetTube default
           from_option id].
      by rewrite Hdist.
    + repeat split. intros T r1' r2'. unfold nextStep.
      cbn [with_Q_table with_mind gameState tubes tubes_0 tubes_1 mind].
      rewrite bool_decide_eq_true_2 by done. cbn [negb].
      cbn [tubes] in Hcond, Hdist. rewrite Hcond.
      cbn [with_targetTube targetTubeIndex].
      rewrite bool_decide_eq_false_2 by done. cbn [mbind option_bind].
      cbn [with_targetTubeIndex with_targetTube targetTube default
           from_option id tubes tubes_0 with_mind].
      change (tubes_0 (with_Q_table g T)) with (tubes_0 g).
      by rewrite Hdist.
  - rewrite bool_decide_eq_false_2 by done.
    exists g. unfold nextStep.
    cbn [with_Q_table with_mind gameState].
    rewrite bool_decide_eq_false_2 by done. by repeat split.
Qed.

Lemma nextStep_returns_early_witness :
  ∃ g', nextStep game_started (1 # 2) (1 # 2) = Some g'
        ∧ g' = (if bool_decide (gameState game_started = GAME)
                then with_mind game_started
                       (with_targetTubeIndex
                          (with_targetTube (mind game_started)
                             (nextTarget game_started))
                          (Z.of_nat (nextTarget game_started)))
                else game_started)
        ∧ Q_table (mind g') = Q_table (mind game_started)
        ∧ frameBuffer (mind g') = frameBuffer (mind game_started)
        ∧ episodeFrameCount (mind g') = episodeFrameCount (mind game_started)
        ∧ birdYSpeed g' = birdYSpeed game_started
        ∧ (∀ T r1' r2',
             nextStep (with_Q_table game_started T) r1' r2'
             = Some (with_Q_table g' T)).
Proof.
  apply (nextStep_returns_early game_started (1 # 2) (1 # 2)).
  - exact (reachable_react initial_game (UserInteraction 0 0) game_started
             reachable_initial eq_refl).
  - right. reflexivity.
Defined.

(** The hypothesis of C10 that the state is one of a session is needed: on
    [game_unreachable] the target is 43 pixels away, yet [nextStep] first
    closes the episode, which writes the table and cuts the buffer. *)
Example nextStep_outside_sessions :
  28 < targetDistance game_unreachable
  ∧ ¬ game_inv game_unreachable
  ∧ ∃ g', nextStep game_unreachable (1 # 2) (1 # 2) = Some g'
          ∧ Q_table (mind g') ≠ Q_table (mind game_unreachable)
          ∧ length (frameBuffer (mind g')) = 2%nat.
Proof.
  split; [reflexivity|]. split.
  - intros (_ & _ & H). destruct H as [_ H]; [done|]. by apply H.
  - eexists. split; [reflexivity|]. split; [|reflexivity].
    intros H. apply (f_equal (fun T => T !! config_key S2 JUMP)) in H.
    vm_compute in H. discriminate.
Qed.

(** ** Saving and loading the table *)

Section SaveLoad.

Variable JSON : JSON_object.

Lemma saveModel_stores (p : page) :
  localStorage (Config.saveModel JSON p).1 !! "flappybird-qtable"
  = Some (JSON_stringify JSON (page_Q_table p)).
Proof. unfold Config.saveModel. cbn [fst localStorage]. apply lookup_insert_eq. Qed.

(** X16. A stored text that [JSON.parse] rejects: both copies of [loadModel]
    throw before the assignment, and the page is the one before. *)
Lemma loadModel_malformed (p : page) (text : string) :
  localStorage p !! "flappybird-qtable" = Some text →
  JSON_parse JSON text = None →
  Config.loadModel JSON p = (p, throw SyntaxError)
  ∧ Config2.loadModel JSON p = (p, throw SyntaxError).
Proof.
  intros Hitem Hparse. unfold Config.loadModel, Config2.loadModel.
  rewrite Hitem. cbn [ToString default from_option id]. rewrite Hparse.
  by rewrite bool_decide_eq_true_2.
Qed.

(** X17. Nothing stored: the first copy of [loadModel] reports it and assigns
    nothing. *)
Lemma loadModel_missing_guarded (p : page) :
  localStorage p !! "flappybird-qtable" = None →
  Config.loadModel JSON p = (p, alert "No saved model found in local storage").
Proof.
  intros Hitem. unfold Config.loadModel. rewrite Hitem.
  by rewrite bool_decide_eq_false_2 by (by intros []).
Qed.

(** C8 on the second copy of [loadModel] with nothing stored: [getItem]
    returns [null], [JSON.parse(null)] parses the text null and returns
    [null], which is assigned to [Q_table]; the success is announced. *)
Theorem loadModel_missing_overwrites_table (p : page) :
  localStorage p !! "flappybird-qtable" = None →
  JSON_parse JSON "null" = Some js_null →
  Config2.loadModel JSON p
  = (mkPage js_null (localStorage p), alert "Model was loaded successfully!").
Proof.
  intros Hitem Hnull. unfold Config2.loadModel. rewrite Hitem.
  cbn [ToString default from_option id]. by rewrite Hnull.
Qed.

End SaveLoad.

Lemma loadModel_missing_overwrites_table_witness :
  Config2.loadModel sample_JSON page_unsaved
  = (mkPage js_null (localStorage page_unsaved),
     alert "Model was loaded successfully!").
Proof.
  apply (loadModel_missing_overwrites_table sample_JSON page_unsaved).
  - reflexivity.
  - reflexivity.
Defined.

(** The stored text of the sample table, and the two ways in which a load
    that finds no usable document ends in the first copy of the file. *)
Example loadModel_samples :
  Config.loadModel sample_JSON page_malformed
  = (page_malformed, throw SyntaxError)
  ∧ Config2.loadModel sample_JSON page_malformed
    = (page_malformed, throw SyntaxError)
  ∧ Config.loadModel sample_JSON page_unsaved
    = (page_unsaved, alert "No saved model found in local storage").
Proof. repeat split; by vm_compute. Qed.

(** ** The JSON text of a table *)

Section JSON_text_facts.

Import JSON_text.

Lemma digit_value_char (d : Z) :
  0 ≤ d ≤ 9 → digit_value (digit_char d) = Some d.
Proof.
  intros Hd.
  assert (d = 0 ∨ d = 1 ∨ d = 2 ∨ d = 3 ∨ d = 4 ∨ d = 5 ∨ d = 6 ∨ d = 7
          ∨ d = 8 ∨ d = 9) as Hcases by lia.
  repeat (destruct Hcases as [->|Hcases]; [reflexivity|]). by subst.
Qed.

Lemma digit_char_not (d : Z) (c : ascii) :
  0 ≤ d ≤ 9 → digit_value c = None → Ascii.eqb c (digit_char d) = false.
Proof.
  intros Hd Hc. destruct (Ascii.eqb_spec c (digit_char d)) as [->|]; [|done].
  by rewrite digit_value_char in Hc.
Qed.

Lemma digits_app (k : nat) : ∀ n rest tail,
  digits k n rest ++ tail = digits k n (rest ++ tail).
Proof.
  induction k as [|k IH]; intros n rest tail; cbn [digits]; [done|].
  by rewrite IH.
Qed.

Lemma read_digits_digits (k : nat) : ∀ n rest acc count,
  read_digits (digits k n rest) acc count
  = read_digits rest (acc * 10 ^ Z.of_nat k + n mod 10 ^ Z.of_nat k)
      (count + k).
Proof.
  induction k as [|k IH]; intros n rest acc count; cbn [digits].
  - rewrite Z.mod_1_r, Nat.add_0_r. f_equal. cbn. lia.
  - rewrite IH. cbn [read_digits].
    rewrite digit_value_char
      by (pose proof (Z.mod_pos_bound n 10 ltac:(lia)); lia).
    f_equal; [|lia].
    rewrite Nat2Z.inj_succ, Z.pow_succ_r by lia.
    rewrite (Z.rem_mul_r n 10 (10 ^ Z.of_nat k)) by lia. lia.
Qed.

Lemma digits_head (k : nat) : ∀ n rest,
  digits (S k) n rest
  = digit_char (n / 10 ^ Z.of_nat k mod 10) :: digits k n rest.
Proof.
  induction k as [|k IH]; intros n rest.
  - cbn [digits]. by rewrite Z.div_1_r.
  - change (digits (S (S k)) n rest)
      with (digits (S k) (n / 10) (digit_char (n mod 10) :: rest)).
    rewrite IH. cbn [digits]. do 3 f_equal.
    rewrite Nat2Z.inj_succ, Z.pow_succ_r by lia.
    by rewrite Z.div_div by lia.
Qed.

Lemma count_digits_spec (fuel : nat) : ∀ n,
  0 ≤ n < 2 ^ Z.of_nat fuel →
  let c := count_digits fuel n in
  n < 10 ^ Z.of_nat c ∧ (10 ≤ n → 10 ^ (Z.of_nat c - 1) ≤ n) ∧ (1 ≤ c)%nat
  ∧ (n < 10 → c = 1%nat).
Proof.
  induction fuel as [|fuel IH]; intros n Hn; cbn [count_digits].
  - cbn in Hn. repeat split; (done || lia).
  - destruct (Z.ltb_spec n 10) as [Hlt|Hge]; [repeat split; (done || lia)|].
    rewrite Nat2Z.inj_succ, Z.pow_succ_r in Hn by lia.
    destruct (IH (n / 10)) as (H1 & H2 & H3 & H4).
    { split; [apply Z.div_pos; lia|]. apply Z.div_lt_upper_bound; lia. }
    rewrite Nat2Z.inj_succ, Z.pow_succ_r by lia.
    replace (Z.succ (Z.of_nat (count_digits fuel (n / 10))) - 1)
      with (Z.of_nat (count_digits fuel (n / 10))) by lia.
    pose proof (Z.div_mod n 10 ltac:(lia)) as Hdm.
    pose proof (Z.mod_pos_bound n 10 ltac:(lia)) as Hr.
    split; [lia|]. split; [|split; [lia|lia]]. intros _.
    destruct (Z.ltb_spec (n / 10) 10) as [Hs|Hs].
    + rewrite (H4 Hs). cbn. lia.
    + specialize (H2 Hs).
      replace (Z.of_nat (count_digits fuel (n / 10)))
        with (Z.succ (Z.of_nat (count_digits fuel (n / 10)) - 1)) by lia.
      rewrite Z.pow_succ_r by lia. lia.
Qed.

Lemma number_of_digits_spec (n : Z) :
  0 ≤ n →
  let c := number_of_digits n in
  n < 10 ^ Z.of_nat c ∧ (10 ≤ n → 10 ^ (Z.of_nat c - 1) ≤ n) ∧ (1 ≤ c)%nat
  ∧ (n < 10 → c = 1%nat).
Proof.
  intros Hn. apply count_digits_spec. split; [done|].
  destruct (decide (n = 0)) as [->|Hne]; [done|].
  rewrite Nat2Z.inj_add, Z2Nat.id by apply Z.log2_nonneg.
  apply Z.log2_lt_pow2; lia.
Qed.

Lemma find_places_sound (fuel : nat) : ∀ k0 n d k,
  find_places fuel k0 n d = Some k →
  ∃ j : nat, k = (k0 + j)%nat ∧ (n * 10 ^ Z.of_nat j) mod d = 0.
Proof.
  induction fuel as [|fuel IH]; intros k0 n d k; cbn [find_places];
    destruct (Z.eqb_spec (n mod d) 0) as [E|E]; try done.
  - intros [= <-]. exists 0%nat. split; [lia|]. by rewrite Z.mul_1_r.
  - intros [= <-]. exists 0%nat. split; [lia|]. by rewrite Z.mul_1_r.
  - intros H. destruct (IH _ _ _ _ H) as (j & -> & Hj). exists (S j).
    split; [lia|]. rewrite Nat2Z.inj_succ, Z.pow_succ_r by lia.
    by rewrite Z.mul_assoc.
Qed.

Lemma find_places_complete (fuel : nat) : ∀ k0 n d (j : nat),
  (j ≤ fuel)%nat → (n * 10 ^ Z.of_nat j) mod d = 0 →
  is_Some (find_places fuel k0 n d).
Proof.
  induction fuel as [|fuel IH]; intros k0 n d j Hj Hdiv; cbn [find_places];
    destruct (Z.eqb_spec (n mod d) 0) as [E|E]; try done.
  - assert (j = 0%nat) as -> by lia. by rewrite Z.mul_1_r in Hdiv.
  - destruct j as [|j]; [by rewrite Z.mul_1_r in Hdiv|].
    apply (IH _ _ _ j); [lia|].
    rewrite Nat2Z.inj_succ, Z.pow_succ_r in Hdiv by lia.
    by rewrite <- Z.mul_assoc.
Qed.

(** A divisor of [n * 10^k] that is at most [2^K] divides [n * 10^K]:
    each factor 10 that is needed takes away a factor 2 or 5 of it. *)
Lemma pow10_divide_bound (K : nat) : ∀ d n (k : nat),
  0 < d ≤ 2 ^ Z.of_nat K → (d | n * 10 ^ Z.of_nat k) →
  (d | n * 10 ^ Z.of_nat K).
Proof.
  induction K as [|K IH]; intros d n k Hd Hdiv.
  - assert (d = 1) as -> by (cbn in Hd; lia). apply Z.divide_1_l.
  - destruct (decide (Z.gcd d 10 = 1)) as [Hg|Hg].
    + assert (d | n) as Hn.
      { clear Hd IH. induction k as [|k IHk].
        - by rewrite Z.mul_1_r in Hdiv.
        - apply IHk. rewrite Nat2Z.inj_succ, Z.pow_succ_r in Hdiv by lia.
          apply (Z.gauss d 10); [|done].
          by rewrite Z.mul_assoc, (Z.mul_comm n 10), <- Z.mul_assoc in Hdiv. }
      by apply Z.divide_mul_l.
    + pose proof (Z.gcd_divide_l d 10) as [d1 Hd1].
      pose proof (Z.gcd_divide_r d 10) as [z Hz].
      pose proof (Z.gcd_nonneg d 10) as Hg0.
      set (g := Z.gcd d 10) in *.
      assert (g ≠ 0) by (intros Hz0; rewrite Hz0 in Hz; lia).
      assert (2 ≤ g) by lia.
      rewrite Nat2Z.inj_succ, Z.pow_succ_r in Hd by lia.
      assert (0 < d1 ≤ 2 ^ Z.of_nat K) as Hd1' by nia.
      destruct (IH d1 n k Hd1') as [y Hy].
      { apply Z.divide_trans with d; [|done]. exists g. lia. }
      rewrite Nat2Z.inj_succ, Z.pow_succ_r by lia.
      exists (z * y). rewrite Hd1.
      replace (n * (10 * 10 ^ Z.of_nat K)) with (10 * (n * 10 ^ Z.of_nat K))
        by lia.
      rewrite Hy. rewrite Hz at 1. lia.
Qed.

Lemma decimal_places_complete (q : Q) :
  decimal q → is_Some (decimal_places q).
Proof.
  intros [k Hk]. unfold decimal_places.
  apply (find_places_complete _ _ _ _ (Pos.to_nat (Pos.size (Qden q))));
    [done|].
  apply Z.mod_divide; [done|].
  apply (pow10_divide_bound _ _ _ k); [|done]. split; [done|].
  rewrite positive_nat_Z.
  pose proof (Pos.size_gt (Qden q)) as Hs.
  apply Pos2Z.pos_lt_pos in Hs. rewrite Pos2Z.inj_pow in Hs. lia.
Qed.

(** The estimate read back is the estimate written. *)
Lemma decimal_places_scaled (q : Q) (k : nat) :
  decimal_places q = Some k →
  scaled q k * Z.pos (Qden q) = Qnum q * 10 ^ Z.of_nat k.
Proof.
  intros H. apply find_places_sound in H as (j & -> & Hj).
  unfold scaled. cbn [Nat.add]. apply Z.mod_divide in Hj as [y Hy]; [|done].
  rewrite Hy, Z.div_mul; done.
Qed.

Lemma read_back_eq (q : Q) : (read_back q == q)%Q.
Proof.
  unfold read_back. destruct (decimal_places q) as [k|] eqn:Hk; [|done].
  apply decimal_places_scaled in Hk. unfold Qeq. cbn [Qnum Qden].
  rewrite Z2Pos.id by (apply Z.pow_pos_nonneg; lia). lia.
Qed.

Lemma read_digits_end tail acc count :
  number_end tail → read_digits tail acc count = (acc, count, tail).
Proof.
  destruct tail as [|c tail]; [done|]. intros [H _]. cbn [read_digits].
  by rewrite H.
Qed.

Lemma read_digits_point rest acc count :
  read_digits ("."%char :: rest) acc count = (acc, count, "."%char :: rest).
Proof. reflexivity. Qed.

Lemma expect_end c tail :
  number_end tail → c = "."%char → expect c tail = None.
Proof.
  intros Hend ->. destruct tail as [|c tail]; [done|]. cbn [expect].
  destruct Hend as (_ & Hc & _). by destruct (Ascii.eqb_spec "." c).
Qed.

Lemma parse_exponent_end v tail :
  number_end tail → parse_exponent v tail = Some (v, tail).
Proof.
  destruct tail as [|c tail]; [done|]. intros (_ & _ & He & HE).
  cbn [parse_exponent].
  by destruct (Ascii.eqb_spec c "e"), (Ascii.eqb_spec c "E").
Qed.

Lemma parse_decimal_print (q : Q) (tail : list ascii) :
  is_Some (decimal_places q) → number_end tail →
  parse_decimal (print_number q ++ tail) = Some (read_back q, tail).
Proof.
  intros [k Hk] Hend. unfold print_number, read_back. rewrite Hk.
  set (m := Z.abs (scaled q k)). set (int := m / 10 ^ Z.of_nat k).
  assert (0 < 10 ^ Z.of_nat k) as Hpow by (apply Z.pow_pos_nonneg; lia).
  assert (0 ≤ int) as Hint by (apply Z.div_pos; lia).
  destruct (number_of_digits_spec int Hint) as (Hlt & Hge & Hpos & Hone).
  set (frac := match k with
               | O => []
               | S _ => "."%char :: digits k m []
               end).
  destruct (number_of_digits int) as [|nd] eqn:Hnd; [lia|].
  set (d := int / 10 ^ Z.of_nat nd mod 10).
  assert (0 ≤ d ≤ 9) as Hd
    by (pose proof (Z.mod_pos_bound (int / 10 ^ Z.of_nat nd) 10); lia).
  assert (nd ≠ 0%nat → d ≠ 0) as Hlead.
  { intros Hn. unfold d.
    assert (0 < 10 ^ Z.of_nat nd) by (apply Z.pow_pos_nonneg; lia).
    assert (10 ≤ int) as H10.
    { destruct (Z.ltb_spec int 10) as [Hs|]; [|done].
      specialize (Hone Hs). lia. }
    specialize (Hge H10).
    replace (Z.of_nat (S nd) - 1) with (Z.of_nat nd) in Hge by lia.
    rewrite Nat2Z.inj_succ, Z.pow_succ_r in Hlt by lia.
    rewrite Z.mod_small; [|split].
    - assert (1 ≤ int / 10 ^ Z.of_nat nd)
        by (apply Z.div_le_lower_bound; lia). lia.
    - apply Z.div_pos; lia.
    - apply Z.div_lt_upper_bound; lia. }
  assert (∀ sign rest,
            sign * m = scaled q k →
            rest = digits (S nd) int frac ++ tail →
            (let '(int', int_digits, s2) := read_digits rest 0 0 in
             let leading_zero :=
               match expect "0" rest with Some _ => true | None => false end in
             if (int_digits =? 0)%nat || (leading_zero && (1 <? int_digits)%nat)
             then None
             else
               match expect "." s2 with
               | None => Some (sign * int' # 1, s2)
               | Some s3 =>
                   let '(frac', frac_digits, s4) := read_digits s3 0 0 in
                   if (frac_digits =? 0)%nat then None
                   else
                     Some (sign * (int' * 10 ^ Z.of_nat frac_digits + frac')
                             # Z.to_pos (10 ^ Z.of_nat frac_digits), s4)
               end)
            = Some (scaled q k # Z.to_pos (10 ^ Z.of_nat k), tail)) as Hbody.
  { intros sign rest Hsign ->.
    rewrite digits_app, read_digits_digits.
    rewrite Z.mul_0_l, Z.add_0_l, Nat.add_0_l, Z.mod_small by lia.
    rewrite <- digits_app, digits_head. cbn [app expect]. fold d.
    assert (Ascii.eqb "0" (digit_char d) = false ∨ nd = 0%nat) as Hzero.
    { destruct (Ascii.eqb_spec "0" (digit_char d)) as [E|E]; [|by left].
      right. destruct nd as [|nd']; [done|].
      specialize (Hlead ltac:(done)).
      apply (f_equal digit_value) in E. rewrite digit_value_char in E by done.
      by injection E. }
    assert (∀ (b : bool) (X : list ascii),
              b = false ∨ nd = 0%nat →
              match (if b then Some X else None) with
              | Some _ => true
              | None => false
              end && (1 <? S nd)%nat = false) as Hlz.
    { intros b X [-> | ->]; [done|]. by rewrite andb_false_r. }
    unfold frac. destruct k as [|k'].
    - cbn [app]. rewrite read_digits_end by done. cbv iota beta zeta.
      cbn [Nat.eqb orb]. rewrite (Hlz _ _ Hzero).
      rewrite expect_end by done. do 2 f_equal. unfold int in *.
      cbn in Hsign |- *. rewrite Z.div_1_r. by rewrite Hsign.
    - cbn [app]. rewrite read_digits_point. cbv iota beta zeta.
      cbn [Nat.eqb orb]. rewrite (Hlz _ _ Hzero). cbn [expect].
      change (Ascii.eqb "." ".") with true. cbv iota.
      rewrite digits_app, read_digits_digits. cbn [app].
      rewrite read_digits_end by done.
      rewrite Z.mul_0_l, Z.add_0_l, Nat.add_0_l. cbn [Nat.eqb].
      do 3 f_equal. unfold int.
      pose proof (Z.div_mod m (10 ^ Z.of_nat (S k')) ltac:(lia)). lia. }
  unfold parse_decimal.
  destruct (Z.ltb_spec (scaled q k) 0) as [Hneg|Hnonneg].
  - cbn [app expect]. change (Ascii.eqb "-" "-") with true. cbv iota.
    apply (Hbody (-1)); [unfold m; lia | done].
  - cbn [app].
    assert (expect "-" (digits (S nd) int frac ++ tail) = None) as ->.
    { rewrite digits_app, digits_head. cbn [expect]. fold d.
      by rewrite digit_char_not. }
    apply (Hbody 1); [unfold m; lia | done].
Qed.

Lemma parse_number_print (q : Q) (tail : list ascii) :
  is_Some (decimal_places q) → number_end tail →
  parse_number (print_number q ++ tail) = Some (read_back q, tail).
Proof.
  intros Hq Hend. unfold parse_number.
  rewrite parse_decimal_print by done. cbn [mbind option_bind].
  by apply parse_exponent_end.
Qed.

Lemma parse_key_plain (k rest : list ascii) :
  Forall (fun c => plain_char c = true) k →
  parse_key (k ++ quote :: rest) = Some (k, rest).
Proof.
  induction 1 as [|c k Hc _ IH]; cbn [app parse_key].
  - by change (Ascii.eqb quote quote) with true.
  - rewrite Hc, IH. unfold plain_char in Hc.
    by destruct (Ascii.eqb c quote).
Qed.

Lemma parse_member_print (kv : string * Q) (tail : list ascii) :
  plain_key kv.1 → is_Some (decimal_places kv.2) → number_end tail →
  parse_member (print_member kv ++ tail)
  = Some (kv.1, read_back kv.2, tail).
Proof.
  intros Hkey Hv Hend. unfold parse_member, print_member.
  cbn [app expect]. change (Ascii.eqb quote quote) with true.
  cbn [mbind option_bind]. rewrite <- app_assoc. cbn [app].
  rewrite parse_key_plain by done. cbn [mbind option_bind expect].
  change (Ascii.eqb ":" ":") with true. cbn [mbind option_bind].
  rewrite parse_number_print by done. cbn [mbind option_bind].
  by rewrite String.string_of_list_ascii_of_string.
Qed.

Lemma parse_members_print (l : list (string * Q)) : ∀ fuel,
  l ≠ [] → (length l ≤ fuel)%nat → Forall written l →
  parse_members fuel (print_members l ++ ["}"%char])
  = Some ((fun kv => (kv.1, read_back kv.2)) <$> l).
Proof.
  induction l as [|kv l IH]; intros fuel Hne Hfuel Hall; [done|].
  destruct fuel as [|fuel]; [cbn in Hfuel; lia|].
  apply Forall_cons in Hall as [[Hkey Hv] Hall].
  cbn [print_members parse_members]. rewrite <- app_assoc.
  destruct l as [|kv' l].
  - cbn [app]. rewrite parse_member_print by done.
    cbn [mbind option_bind]. by change (Ascii.eqb "}" "}") with true.
  - cbn [app]. rewrite parse_member_print by done.
    cbn [mbind option_bind].
    assert (∃ c rest, print_members (kv' :: l) ++ ["}"%char] = c :: rest)
      as (c & rest & Hrest) by (cbn; eauto).
    rewrite Hrest. change (Ascii.eqb "," ",") with true. cbv iota.
    rewrite <- Hrest, IH; [done | done | cbn in *; lia | done].
Qed.

Lemma print_members_length (l : list (string * Q)) :
  (length l ≤ length (print_members l))%nat.
Proof.
  assert (∀ kv, (1 ≤ length (print_member kv))%nat) as Hmember
    by (intros kv; unfold print_member; cbn [length]; lia).
  induction l as [|kv [|kv' l] IH]; cbn [print_members length] in *;
    [done| |]; rewrite length_app; specialize (Hmember kv); cbn [length];
    lia.
Qed.

Lemma parse_table_print (t : gmap string Q) :
  map_Forall (fun k v => written (k, v)) t →
  parse_table (print_table t) = Some (read_back <$> t).
Proof.
  intros Hall. unfold parse_table, print_table. cbn [expect].
  change (Ascii.eqb "{" "{") with true. cbn [mbind option_bind].
  destruct (map_to_list t) as [|kv l] eqn:Hl.
  - apply map_to_list_empty_iff in Hl as ->. cbn.
    by rewrite fmap_empty.
  - assert (Forall written (kv :: l)) as Hall'.
    { rewrite <- Hl. apply Forall_forall. intros [k v] Hkv.
      apply elem_of_map_to_list in Hkv. by apply (Hall k v). }
    assert (∃ c c' rest,
              print_members (kv :: l) ++ ["}"%char] = c :: c' :: rest)
      as (c & c' & rest & Hrest).
    { cbn [print_members print_member app].
      destruct (String.list_ascii_of_string kv.1 ++ _) eqn:E; [|eauto].
      by destruct (String.list_ascii_of_string kv.1). }
    rewrite Hrest, <- Hrest.
    rewrite parse_members_print; [|done| |done].
    + cbn [mbind option_bind]. f_equal.
      rewrite <- (list_to_map_to_list t), <- list_to_map_fmap.
      rewrite Hl. apply list_to_map_proper; [|apply reverse_Permutation].
      rewrite fmap_reverse, reverse_Permutation, <- list_fmap_compose.
      change (NoDup ((kv :: l).*1)).
      rewrite <- Hl. apply NoDup_fst_map_to_list.
    + rewrite length_app. pose proof (print_members_length (kv :: l)). lia.
Qed.

Lemma parse_stringify (t : gmap string Q) :
  map_Forall (fun k v => written (k, v)) t →
  parse (stringify (js_table t)) = Some (js_table (read_back <$> t)).
Proof.
  intros Hall. unfold parse, stringify.
  rewrite bool_decide_eq_false_2 by done.
  rewrite String.list_ascii_of_string_of_list_ascii.
  by rewrite parse_table_print.
Qed.

End JSON_text_facts.

(** ** Saving and loading through the JSON text *)

Lemma storable_written (t : gmap string Q) :
  storable t → map_Forall (fun k v => written (k, v)) t.
Proof.
  intros Ht k v Hkv. destruct (Ht k v Hkv) as [Hk Hv].
  split; [done|]. by apply decimal_places_complete.
Qed.

Lemma sample_table_storable : storable sample_table.
Proof.
  intros k v. unfold sample_table.
  rewrite !lookup_insert_Some, lookup_empty.
  intros [[<- <-]|[_ [[<- <-]|[_ ?]]]]; [| |done];
    (split; [by repeat constructor|]).
  - exists 1%nat. by exists 5.
  - exists 2%nat. by exists 24.
Defined.

(** C7. Let [T] be the table at the time of [saveModel], with keys that
    are written as they are and estimates of finitely many decimals (the
    keys and the estimates of a table of the program are such). Whatever
    [Q_table] holds afterwards, either copy of [loadModel] then announces
    the success and leaves in [Q_table] a table [T'] with an entry for
    exactly the keys of [T], every key of [T] having in [T'] the estimate
    it has in [T]; [getQ] returns the same estimate for every state and
    action. *)
Theorem saveModel_loadModel_roundtrip (p : page) (T : gmap string Q)
    (current : js_value) :
  page_Q_table p = js_table T →
  storable T →
  let saved := (Config.saveModel text_JSON p).1 in
  let later := mkPage current (localStorage saved) in
  ∀ loaded,
    loaded = Config.loadModel text_JSON later
    ∨ loaded = Config2.loadModel text_JSON later →
    loaded.2 = alert "Model was loaded successfully!"
    ∧ ∃ T', page_Q_table loaded.1 = js_table T'
            ∧ (∀ k, T' !! k = None ↔ T !! k = None)
            ∧ (∀ k v, T !! k = Some v →
                      ∃ v', T' !! k = Some v' ∧ (v' == v)%Q)
            ∧ (∀ s a, (getQ T' s a == getQ T s a)%Q).
Proof.
  intros HT Hst saved later loaded Hloaded.
  assert (Hitem : localStorage later !! "flappybird-qtable"
                  = Some (JSON_text.stringify (js_table T))).
  { unfold later, saved, Config.saveModel.
    cbn [localStorage fst text_JSON JSON_stringify].
    by rewrite lookup_insert_eq, HT. }
  assert (loaded = (mkPage (js_table (read_back <$> T)) (localStorage later),
                    alert "Model was loaded successfully!")) as ->.
  { destruct Hloaded as [-> | ->];
      unfold Config.loadModel, Config2.loadModel; rewrite Hitem;
      cbn [ToString default from_option id text_JSON JSON_parse];
      rewrite parse_stringify by (by apply storable_written);
      by rewrite ?bool_decide_eq_true_2. }
  split; [done|]. exists (read_back <$> T). split; [done|].
  split; [|split].
  - intros k. rewrite lookup_fmap. by destruct (T !! k).
  - intros k v Hkv. exists (read_back v). rewrite lookup_fmap, Hkv.
    split; [done | apply read_back_eq].
  - intros s a. unfold getQ. rewrite lookup_fmap.
    destruct (T !! config_key s a); [apply read_back_eq | done].
Qed.

Lemma saveModel_loadModel_roundtrip_witness :
  (Config.loadModel text_JSON
     (mkPage js_null
        (localStorage (Config.saveModel text_JSON page_unsaved).1))).2
  = alert "Model was loaded successfully!"
  ∧ ∃ T', page_Q_table
            (Config.loadModel text_JSON
               (mkPage js_null
                  (localStorage (Config.saveModel text_JSON page_unsaved).1))).1
          = js_table T'
          ∧ (∀ k, T' !! k = None ↔ sample_table !! k = None)
          ∧ (∀ k v, sample_table !! k = Some v →
                    ∃ v', T' !! k = Some v' ∧ (v' == v)%Q)
          ∧ (∀ s a, (getQ T' s a == getQ sample_table s a)%Q).
Proof.
  apply (saveModel_loadModel_roundtrip page_unsaved sample_table js_null).
  - reflexivity.
  - exact sample_table_storable.
  - left. reflexivity.
Defined.

(** The text that is stored for the sample table. *)
Example saveModel_sample_text :
  ∃ text,
    localStorage (Config.saveModel text_JSON page_unsaved).1
      !! "flappybird-qtable" = Some text
    ∧ String.list_ascii_of_string text
      = [ "{"; JSON_text.quote ]%char
        ++ String.list_ascii_of_string "3,25,20,0"
        ++ [ JSON_text.quote ]
        ++ String.list_ascii_of_string ":0.24,"
        ++ [ JSON_text.quote ]
        ++ String.list_ascii_of_string "0,50,19,1"
        ++ [ JSON_text.quote ]
        ++ String.list_ascii_of_string ":0.5}".
Proof. eexists. split; [by vm_compute | by vm_compute]. Qed.

(** * Further properties of the code *)

(** ** The table operations *)

(** X1. Two state-action pairs have the same key only when they are the
    same pair, and [setQ] adds its reward to the estimate of its own pair
    and leaves the estimate of every other pair as it was. *)
Theorem setQ_changes_only_its_pair (T : gmap string Q) (s s' : env_state)
    (a a' : action) (r : Q) :
  (config_key s a = config_key s' a' ↔ (s, a) = (s', a'))
  ∧ getQ (setQ T s a r) s' a'
    = if bool_decide ((s, a) = (s', a')) then (getQ T s a + r)%Q
      else getQ T s' a'.
Proof.
  split.
  - split; [|by intros [= -> ->]].
    intros H. by apply config_key_inj in H as [-> ->].
  - case_bool_decide as H.
    + injection H as <- <-. apply getQ_setQ.
    + by apply getQ_setQ_other_pair.
Qed.

Lemma table_add_commute T s a r s' a' r' :
  (s, a) ≠ (s', a') →
  table_add (table_add T s a r) s' a' r'
  = table_add (table_add T s' a' r') s a r.
Proof.
  intros Hne.
  assert (config_key s a ≠ config_key s' a') as Hk.
  { intros Hk. by apply config_key_inj in Hk as [-> ->]. }
  unfold table_add, table_get.
  rewrite !lookup_insert_ne by done. by apply insert_insert_ne.
Qed.

(** X2. Updates compose: two updates of distinct pairs give the same table
    in either order, and two updates of one pair add up in its estimate. *)
Theorem setQ_updates_compose (T : gmap string Q) (s s' : env_state)
    (a a' : action) (r r' : Q) :
  (s, a) ≠ (s', a') →
  setQ (setQ T s a r) s' a' r' = setQ (setQ T s' a' r') s a r
  ∧ getQ (setQ (setQ T s a r) s a r') s a = (getQ T s a + r + r')%Q
  ∧ getQ (setQ (setQ T s a r) s' a' r') s a = (getQ T s a + r)%Q.
Proof.
  intros Hne. split; [|split].
  - rewrite !setQ_table_add. by apply table_add_commute.
  - by rewrite !getQ_setQ.
  - rewrite getQ_setQ_other_pair by done. apply getQ_setQ.
Qed.

Lemma setQ_updates_compose_witness :
  setQ (setQ ∅ S1 STAY (1 # 2)) S2 JUMP (1 # 4)
  = setQ (setQ ∅ S2 JUMP (1 # 4)) S1 STAY (1 # 2)
  ∧ getQ (setQ (setQ ∅ S1 STAY (1 # 2)) S1 STAY (1 # 4)) S1 STAY
    = (getQ ∅ S1 STAY + (1 # 2) + (1 # 4))%Q
  ∧ getQ (setQ (setQ ∅ S1 STAY (1 # 2)) S2 JUMP (1 # 4)) S1 STAY
    = (getQ ∅ S1 STAY + (1 # 2))%Q.
Proof.
  apply (setQ_updates_compose ∅ S1 S2 STAY JUMP (1 # 2) (1 # 4)).
  discriminate.
Defined.

(** X3. An update of one action of a state decides the greedy choice by
    the new comparison: when the random decision is not taken and the
    estimate of Jump increased by [r] exceeds the one of Stay, [getAction]
    on the updated table returns Jump; when it stays below, Stay. *)
Theorem getAction_follows_update (T : gmap string Q) (s : env_state)
    (r r1 r2 : Q) :
  takeRandomDecision r1 ≠ 0 →
  ((getQ T s STAY < getQ T s JUMP + r)%Q →
   getAction (setQ T s JUMP r) s r1 r2 = JUMP)
  ∧ ((getQ T s JUMP + r < getQ T s STAY)%Q →
     getAction (setQ T s JUMP r) s r1 r2 = STAY).
Proof.
  intros Hr.
  assert (getQ (setQ T s JUMP r) s JUMP = (getQ T s JUMP + r)%Q) as HJ
    by apply getQ_setQ.
  assert (getQ (setQ T s JUMP r) s STAY = getQ T s STAY) as HS
    by (by apply getQ_setQ_other_pair).
  split; intros Hlt; rewrite getAction_greedy, HJ, HS by done.
  - assert (JS.Qltb (getQ T s JUMP + r) (getQ T s STAY) = false) as ->
      by (apply Qltb_false_iff; lra).
    apply Qltb_true_iff in Hlt. by rewrite Hlt.
  - apply Qltb_true_iff in Hlt. by rewrite Hlt.
Qed.

Lemma getAction_follows_update_witness :
  ((getQ ∅ S1 STAY < getQ ∅ S1 JUMP + (1 # 2))%Q →
   getAction (setQ ∅ S1 JUMP (1 # 2)) S1 (1 # 2) (1 # 2) = JUMP)
  ∧ ((getQ ∅ S1 JUMP + (1 # 2) < getQ ∅ S1 STAY)%Q →
     getAction (setQ ∅ S1 JUMP (1 # 2)) S1 (1 # 2) (1 # 2) = STAY).
Proof.
  apply (getAction_follows_update ∅ S1 (1 # 2) (1 # 2) (1 # 2)).
  vm_compute. discriminate.
Defined.

(** ** What [rewardTheBird] does to the table and to the buffer *)

(** A property of the table that every visit keeps holds after the call. *)
Lemma rewardTheBird_table_ind (P : gmap string Q → Prop) (b : brain)
    (reward : Q) (ok : bool) :
  (∀ T visited next,
     visited ∈ frameBuffer b → next ∈ frameBuffer b → P T →
     P (table_add T (env visited) (act visited)
          (td_delta T reward ok visited next))) →
  P (Q_table b) →
  ∃ b', rewardTheBird b reward ok = Some b' ∧ P (Q_table b').
Proof.
  intros Hvisit HP. unfold rewardTheBird.
  assert (∀ l T, P T →
            P (foldl (assignCredit_visit (frameBuffer b) reward ok) T l))
    as Hfold.
  { induction l as [|i l IH]; intros T HT; [done|]. cbn [foldl]. apply IH.
    unfold assignCredit_visit.
    destruct (frameBuffer b !! i) as [visited|] eqn:Hv; [|done].
    destruct (frameBuffer b !! S i) as [next|] eqn:Hn; [|done].
    apply Hvisit; [| |done]; by eapply list_elem_of_lookup_2. }
  destruct (frameBuffer b) as [|f fb] eqn:Hfb.
  - cbn. eauto.
  - rewrite <- Hfb in *.
    rewrite rewardTheBird_loop_fold by (rewrite Hfb; cbn; lia).
    cbn [mbind option_bind]. eexists; split; [reflexivity|].
    cbn [Q_table]. apply Hfold, HP.
Qed.

(** X4. [rewardTheBird] returns for every buffer, table, reward and flag
    (no entry is read outside the buffer). The buffer it leaves is the end
    of the old one, of [min 5 (len - 1)] entries: never more than 5, and
    shorter than the old one unless that was empty. The count of frames is
    0; the target, its index and the count of trials stay. *)
Theorem rewardTheBird_returns_and_trims (b : brain) (reward : Q) (ok : bool) :
  ∃ b', rewardTheBird b reward ok = Some b'
        ∧ frameBuffer b' `suffix_of` frameBuffer b
        ∧ length (frameBuffer b') = Nat.min 5 (length (frameBuffer b) - 1)
        ∧ (length (frameBuffer b') ≤ 5)%nat
        ∧ (frameBuffer b ≠ [] →
           (length (frameBuffer b') < length (frameBuffer b))%nat)
        ∧ episodeFrameCount b' = 0%nat
        ∧ targetTubeIndex b' = targetTubeIndex b
        ∧ targetTube b' = targetTube b
        ∧ trials b' = trials b.
Proof.
  destruct (rewardTheBird_buffer_after b reward ok)
    as (b' & Hb' & Hfb & Hlen & Hcount & Hidx & Htube).
  exists b'. split; [done|]. split; [rewrite Hfb; apply suffix_drop|].
  split; [done|]. split; [lia|]. split.
  - intros Hne.
    assert (length (frameBuffer b) ≠ 0%nat)
      by (by destruct (frameBuffer b)).
    lia.
  - repeat split; try done.
    revert Hb'. unfold rewardTheBird.
    destruct (rewardTheBird_loop _ _ _ _ _ _); [|done].
    cbn [mbind option_bind]. by intros [= <-].
Qed.

(** X5. [rewardTheBird] writes only the estimates of the pairs of the
    buffer: the entry of a key that is the key of no frame of the buffer is
    as before (absent if it was absent), and no entry of the table is ever
    removed. *)
Theorem rewardTheBird_touches_only_buffer_keys (b : brain) (reward : Q)
    (ok : bool) :
  ∃ b', rewardTheBird b reward ok = Some b'
        ∧ (∀ k, (∀ f, f ∈ frameBuffer b → frame_key f ≠ k) →
                Q_table b' !! k = Q_table b !! k)
        ∧ (∀ k, is_Some (Q_table b !! k) → is_Some (Q_table b' !! k)).
Proof.
  destruct (rewardTheBird_table_ind
              (fun T => (∀ k, (∀ f, f ∈ frameBuffer b → frame_key f ≠ k) →
                              T !! k = Q_table b !! k)
                        ∧ (∀ k, is_Some (Q_table b !! k) → is_Some (T !! k)))
              b reward ok) as (b' & Hb' & Hframe & Hdom); [|done|by eauto].
  intros T visited next Hv _ [Hframe Hdom]. unfold table_add. split.
  - intros k Hk. rewrite lookup_insert_ne; [by apply Hframe|].
    by apply (Hk visited).
  - intros k Hsome. rewrite lookup_insert. case_decide; [done|by apply Hdom].
Qed.

Lemma rewardForState_bound (reward R : Q) (ok : bool) (s : env_state)
    (a : action) :
  (0 <= reward)%Q → (reward <= R)%Q → (1 # 2 <= R)%Q →
  (inject_Z (Z.abs (diffY s)) <= R)%Q →
  (- R <= rewardForState reward ok s a ∧ rewardForState reward ok s a <= R)%Q.
Proof.
  intros H0 HR Hhalf Hd.
  assert (0 <= inject_Z (Z.abs (diffY s)))%Q as Hd0.
  { change 0%Q with (inject_Z 0). rewrite <- Zle_Qle. lia. }
  unfold rewardForState, JS.Math_abs.
  destruct ok; cbn [negb]; repeat destruct (_ && _); lra.
Qed.

Lemma table_get_bound (T : gmap string Q) (B : Q) (s : env_state)
    (a : action) :
  table_bounded T B → (0 <= B)%Q →
  (- B <= table_get T s a ∧ table_get T s a <= B)%Q.
Proof.
  intros HT HB. unfold table_get.
  destruct (T !! config_key s a) as [v|] eqn:E; cbn; [by eapply HT | lra].
Qed.

(** One visit keeps the bound of the estimates. *)
Lemma visit_keeps_estimates_bounded (T : gmap string Q) (reward R B : Q)
    (ok : bool) (visited next : frame) :
  (0 <= reward)%Q → (reward <= R)%Q → (1 # 2 <= R)%Q → (5 * R <= B)%Q →
  (inject_Z (Z.abs (diffY (env visited))) <= R)%Q →
  table_bounded T B →
  table_bounded
    (table_add T (env visited) (act visited) (td_delta T reward ok visited next))
    B.
Proof.
  intros H0 HR Hhalf HB Hdev HTB k v. unfold table_add.
  rewrite lookup_insert. case_decide as Hk; [|by apply HTB].
  intros [= <-]. unfold td_delta.
  pose proof (rewardForState_bound reward R ok (env visited) (act visited)
                H0 HR Hhalf Hdev) as Hr.
  assert (0 <= B)%Q as HB0 by lra.
  pose proof (table_get_bound T B (env visited) (act visited) HTB HB0) as Hq.
  pose proof (table_get_bound T B (env next) STAY HTB HB0) as Hs.
  pose proof (table_get_bound T B (env next) JUMP HTB HB0) as Hj.
  set (m := Qmax _ _).
  assert (- B <= m ∧ m <= B)%Q as Hm.
  { unfold m. destruct (Q.max_spec (table_get T (env next) STAY)
                          (table_get T (env next) JUMP)) as [[_ ->]|[_ ->]];
      done. }
  lra.
Qed.

(** X6. The estimates stay bounded. Let the reward be between 0 and [R],
    with [R] at least 1/2, let the deviation of every frame of the buffer
    be at most [R] in absolute value, and let every estimate of the table
    lie between [-B] and [B] for some [B] that is at least [5 * R]. Then
    after [rewardTheBird] every estimate still lies between [-B] and [B]:
    with the rewards 5 and 100 of the game and deviations of at most 100
    pixels no estimate ever leaves the interval from -500 to 500. *)
Theorem rewardTheBird_keeps_estimates_bounded (b : brain) (reward R B : Q)
    (ok : bool) :
  (0 <= reward)%Q → (reward <= R)%Q → (1 # 2 <= R)%Q → (5 * R <= B)%Q →
  (∀ f, f ∈ frameBuffer b → (inject_Z (Z.abs (diffY (env f))) <= R)%Q) →
  table_bounded (Q_table b) B →
  ∃ b', rewardTheBird b reward ok = Some b' ∧ table_bounded (Q_table b') B.
Proof.
  intros H0 HR Hhalf HB Hdev HT.
  apply (rewardTheBird_table_ind (fun T => table_bounded T B)); [|done].
  intros T visited next Hv _ HTB.
  apply (visit_keeps_estimates_bounded T reward R B); auto.
Qed.

Lemma rewardTheBird_keeps_estimates_bounded_witness :
  ∃ b', rewardTheBird brain3 100 false = Some b'
        ∧ table_bounded (Q_table b') 500.
Proof.
  apply (rewardTheBird_keeps_estimates_bounded brain3 100 100 500 false).
  - vm_compute. discriminate.
  - vm_compute. discriminate.
  - vm_compute. discriminate.
  - vm_compute. discriminate.
  - intros f Hf. cbn in Hf.
    repeat (apply elem_of_cons in Hf as [-> | Hf];
            [vm_compute; discriminate|]).
    by apply elem_of_nil in Hf.
  - intros k v Hk. change (Q_table brain3) with (∅ : gmap string Q) in Hk.
    by rewrite lookup_empty in Hk.
Defined.

(** ** One tick of the agent *)

(** [nextStep] in the state [GAME], in one piece: the brain [m1] is the one
    after the episode, if it has ended, has been rewarded. *)
Lemma nextStep_GAME_cases g r1 r2 :
  gameState g = GAME →
  let i := nextTarget g in
  ∃ m1,
    (if episodeEnds g then rewardTheBird (with_targetTube (mind g) i) 5 true
     else Some (with_targetTube (mind g) i)) = Some m1
    ∧ nextStep g r1 r2
      = Some
          (if 28 <? targetDistance g
           then with_mind g (with_targetTubeIndex m1 (Z.of_nat i))
           else
             let a := getAction (Q_table m1) (observedState g i) r1 r2 in
             let m2 :=
               {| Q_table := Q_table m1;
                  frameBuffer := frameBuffer m1 ++ [mkFrame (observedState g i) a];
                  episodeFrameCount := S (episodeFrameCount m1);
                  targetTubeIndex := Some (Z.of_nat i);
                  targetTube := Some i;
                  trials := trials m1 |} in
             if bool_decide (a = JUMP)
             then with_birdYSpeed (with_mind g m2) (- (14 # 10))%Q
             else with_mind g m2).
Proof.
  intros HG i. subst i.
  unfold nextStep, episodeEnds, targetDistance, nextTarget, observedState.
  rewrite HG, (bool_decide_eq_true_2 (GAME = GAME)) by done. cbn [negb].
  destruct (_ && _).
  - change (targetTubeIndex (with_targetTube (mind g) 0))
      with (targetTubeIndex (mind g)).
    change (Some (1 - Z.of_nat 0)) with (Some 1).
    destruct (bool_decide (targetTubeIndex (mind g) = Some 1)).
    + destruct (rewardTheBird_buffer_after (with_targetTube (mind g) 0) 5 true)
        as (m1 & Hm1 & _ & _ & _ & _ & Ht).
      exists m1. split; [done|]. rewrite Hm1. cbn [mbind option_bind].
      cbn [with_targetTubeIndex targetTube Q_table frameBuffer
           episodeFrameCount targetTubeIndex trials].
      rewrite Ht.
      destruct (28 <? _); [reflexivity|].
      by destruct (bool_decide (getAction _ _ _ _ = JUMP)).
    + eexists. split; [reflexivity|]. cbn [mbind option_bind].
      destruct (28 <? _); [reflexivity|].
      by destruct (bool_decide (getAction _ _ _ _ = JUMP)).
  - change (targetTubeIndex (with_targetTube (mind g) 1))
      with (targetTubeIndex (mind g)).
    change (Some (1 - Z.of_nat 1)) with (Some 0).
    destruct (bool_decide (targetTubeIndex (mind g) = Some 0)).
    + destruct (rewardTheBird_buffer_after (with_targetTube (mind g) 1) 5 true)
        as (m1 & Hm1 & _ & _ & _ & _ & Ht).
      exists m1. split; [done|]. rewrite Hm1. cbn [mbind option_bind].
      cbn [with_targetTubeIndex targetTube Q_table frameBuffer
           episodeFrameCount targetTubeIndex trials].
      rewrite Ht.
      destruct (28 <? _); [reflexivity|].
      by destruct (bool_decide (getAction _ _ _ _ = JUMP)).
    + eexists. split; [reflexivity|]. cbn [mbind option_bind].
      destruct (28 <? _); [reflexivity|].
      by destruct (bool_decide (getAction _ _ _ _ = JUMP)).
Qed.

Lemma rewardTheBird_with_targetTube b i reward ok :
  rewardTheBird (with_targetTube b i) reward ok
  = (fun b' => with_targetTube b' i) <$> rewardTheBird b reward ok.
Proof.
  unfold rewardTheBird.
  cbn [with_targetTube frameBuffer episodeFrameCount Q_table targetTubeIndex
       targetTube trials].
  by destruct (rewardTheBird_loop _ _ _ _ _ _).
Qed.

(** X7. On a tick of the state [GAME] whose target is at most 28 pixels
    away, [nextStep] returns and records exactly the action it applies: the
    last frame of the buffer holds the state observed on this tick and the
    action that [getAction] selects for it from the table in place after
    the call, and the vertical speed of the bird is -1.4 when that action
    is Jump and is not touched when it is Stay. The frame is counted, and
    the position of the bird, the tubes and the state of the game stay. *)
Theorem nextStep_records_the_action_it_applies (g : game) (r1 r2 : Q) :
  gameState g = GAME → targetDistance g ≤ 28 →
  ∃ g' f,
    nextStep g r1 r2 = Some g'
    ∧ last (frameBuffer (mind g')) = Some f
    ∧ env f = observedState g (nextTarget g)
    ∧ act f = getAction (Q_table (mind g')) (env f) r1 r2
    ∧ birdYSpeed g'
      = (if bool_decide (act f = JUMP) then (- (14 # 10))%Q else birdYSpeed g)
    ∧ (1 ≤ episodeFrameCount (mind g'))%nat
    ∧ targetTubeIndex (mind g') = Some (Z.of_nat (nextTarget g))
    ∧ birdY g' = birdY g ∧ tubes_0 g' = tubes_0 g ∧ tubes_1 g' = tubes_1 g
    ∧ gameState g' = GAME.
Proof.
  intros HG Hnear.
  destruct (nextStep_GAME_cases g r1 r2 HG) as (m1 & _ & Hstep).
  assert ((28 <? targetDistance g) = false) as Hfar by (apply Z.ltb_ge; lia).
  rewrite Hfar in Hstep. cbv zeta in Hstep.
  set (st := observedState g (nextTarget g)) in *.
  set (a := getAction (Q_table m1) st r1 r2) in *.
  eexists _, (mkFrame st a). split; [exact Hstep|].
  destruct (bool_decide (a = JUMP)) eqn:Ha;
    cbn [with_birdYSpeed with_mind mind frameBuffer Q_table birdYSpeed birdY
         tubes_0 tubes_1 gameState episodeFrameCount targetTubeIndex env act];
    rewrite last_snoc, ?Ha; repeat split; (done || lia).
Qed.

Lemma nextStep_records_the_action_it_applies_witness :
  ∃ g' f,
    nextStep game_near (1 # 2) (1 # 4) = Some g'
    ∧ last (frameBuffer (mind g')) = Some f
    ∧ env f = observedState game_near (nextTarget game_near)
    ∧ act f = getAction (Q_table (mind g')) (env f) (1 # 2) (1 # 4)
    ∧ birdYSpeed g'
      = (if bool_decide (act f = JUMP) then (- (14 # 10))%Q
         else birdYSpeed game_near)
    ∧ (1 ≤ episodeFrameCount (mind g'))%nat
    ∧ targetTubeIndex (mind g') = Some (Z.of_nat (nextTarget game_near))
    ∧ birdY g' = birdY game_near
    ∧ tubes_0 g' = tubes_0 game_near ∧ tubes_1 g' = tubes_1 game_near
    ∧ gameState g' = GAME.
Proof.
  apply (nextStep_records_the_action_it_applies game_near (1 # 2) (1 # 4)).
  - reflexivity.
  - vm_compute. discriminate.
Defined.

(** X8. [nextStep] closes an episode exactly when the index of the target
    changes. On a tick of the state [GAME] on which it does not change, the
    table and the count of trials are the ones before the call and the
    buffer only grows (by the frame of the tick, if any). On a tick on
    which it changes, the table is the one that [rewardTheBird(5, true)]
    computes from the variables before the call, and the buffer is the one
    that this call leaves, followed by the frame of the tick, if any. *)
Theorem nextStep_rewards_only_when_episode_ends (g : game) (r1 r2 : Q) :
  gameState g = GAME →
  ∃ g', nextStep g r1 r2 = Some g'
        ∧ (episodeEnds g = false →
           Q_table (mind g') = Q_table (mind g)
           ∧ frameBuffer (mind g) `prefix_of` frameBuffer (mind g')
           ∧ trials (mind g') = trials (mind g))
        ∧ (episodeEnds g = true →
           ∃ m, rewardTheBird (mind g) 5 true = Some m
                ∧ Q_table (mind g') = Q_table m
                ∧ frameBuffer m `prefix_of` frameBuffer (mind g')
                ∧ (length (frameBuffer (mind g')) ≤ 6)%nat).
Proof.
  intros HG.
  destruct (nextStep_GAME_cases g r1 r2 HG) as (m1 & Hm1 & Hstep).
  cbv zeta in Hstep. eexists. split; [exact Hstep|].
  assert (∀ m2 : brain,
            Q_table m2 = Q_table m1 →
            frameBuffer m1 `prefix_of` frameBuffer m2 →
            (length (frameBuffer m2) ≤ S (length (frameBuffer m1)))%nat →
            trials m2 = trials m1 →
            (episodeEnds g = false →
             Q_table m2 = Q_table (mind g)
             ∧ frameBuffer (mind g) `prefix_of` frameBuffer m2
             ∧ trials m2 = trials (mind g))
            ∧ (episodeEnds g = true →
               ∃ m, rewardTheBird (mind g) 5 true = Some m
                    ∧ Q_table m2 = Q_table m
                    ∧ frameBuffer m `prefix_of` frameBuffer m2
                    ∧ (length (frameBuffer m2) ≤ 6)%nat)) as Hboth.
  { intros m2 HT Hfb Hlen Htr. split; intros He; rewrite He in Hm1.
    - injection Hm1 as <-. by rewrite HT, Htr.
    - rewrite rewardTheBird_with_targetTube in Hm1.
      destruct (rewardTheBird_buffer_after (mind g) 5 true)
        as (m & Hm & _ & Hl & _).
      rewrite Hm in Hm1. injection Hm1 as <-. exists m.
      cbn [with_targetTube Q_table frameBuffer] in *.
      repeat split; try done. lia. }
  destruct (28 <? targetDistance g).
  - apply Hboth; cbn [with_mind mind with_targetTubeIndex Q_table frameBuffer
                      trials]; (done || lia).
  - destruct (bool_decide _);
      apply Hboth; cbn [with_birdYSpeed with_mind mind Q_table frameBuffer
                        trials];
      try done; try (by apply prefix_app_r); rewrite length_app; cbn; lia.
Qed.

Lemma nextStep_rewards_only_when_episode_ends_witness :
  episodeEnds game_near = false ∧ episodeEnds game_passing = true
  ∧ (∃ g', nextStep game_near (1 # 2) (1 # 4) = Some g'
           ∧ (episodeEnds game_near = false →
              Q_table (mind g') = Q_table (mind game_near)
              ∧ frameBuffer (mind game_near) `prefix_of` frameBuffer (mind g')
              ∧ trials (mind g') = trials (mind game_near))
           ∧ (episodeEnds game_near = true →
              ∃ m, rewardTheBird (mind game_near) 5 true = Some m
                   ∧ Q_table (mind g') = Q_table m
                   ∧ frameBuffer m `prefix_of` frameBuffer (mind g')
                   ∧ (length (frameBuffer (mind g')) ≤ 6)%nat))
  ∧ (∃ g', nextStep game_passing (1 # 2) (1 # 4) = Some g'
           ∧ (episodeEnds game_passing = false →
              Q_table (mind g') = Q_table (mind game_passing)
              ∧ frameBuffer (mind game_passing) `prefix_of` frameBuffer (mind g')
              ∧ trials (mind g') = trials (mind game_passing))
           ∧ (episodeEnds game_passing = true →
              ∃ m, rewardTheBird (mind game_passing) 5 true = Some m
                   ∧ Q_table (mind g') = Q_table m
                   ∧ frameBuffer m `prefix_of` frameBuffer (mind g')
                   ∧ (length (frameBuffer (mind g')) ≤ 6)%nat)).
Proof.
  split; [reflexivity|]. split; [reflexivity|]. split.
  - apply (nextStep_rewards_only_when_episode_ends game_near (1 # 2) (1 # 4)).
    reflexivity.
  - apply (nextStep_rewards_only_when_episode_ends game_passing (1 # 2) (1 # 4)).
    reflexivity.
Defined.

(** ** The physics of the bird and of the tubes *)

(** X9. [updateBirdGame] keeps the bird on the screen. Let [y] be the
    rounded sum of the position and the speed: from 0 to 27 it is the new
    position and the speed gains the gravity 0.25; below 0 the bird is put
    at 0, above 27 at 28, both with speed 0. So the new position is always
    between 0 and 28; nothing else of the game is touched. *)
Theorem updateBirdGame_keeps_bird_on_screen (g : game) :
  let y := JS.Math_round (inject_Z (birdY g) + birdYSpeed g) in
  let g' := updateBirdGame g in
  0 ≤ birdY g' ≤ 28
  ∧ (0 ≤ y ≤ 27 →
     birdY g' = y ∧ birdYSpeed g' = (birdYSpeed g + (25 # 100))%Q)
  ∧ (y < 0 → birdY g' = 0 ∧ birdYSpeed g' = 0%Q)
  ∧ (27 < y → birdY g' = 28 ∧ birdYSpeed g' = 0%Q)
  ∧ gameState g' = gameState g ∧ score g' = score g
  ∧ tubes_0 g' = tubes_0 g ∧ tubes_1 g' = tubes_1 g ∧ mind g' = mind g.
Proof.
  intros y g'. subst g'. unfold updateBirdGame, bgLoc_height. fold y.
  destruct (Z.ltb_spec y 0).
  - destruct (Z.ltb_spec 32 (0 + 5)); [lia|].
    cbn [birdY birdYSpeed gameState score tubes_0 tubes_1 mind].
    repeat split; (done || lia).
  - destruct (Z.ltb_spec 32 (y + 5));
      cbn [birdY birdYSpeed gameState score tubes_0 tubes_1 mind];
      repeat split; (done || lia).
Qed.

Lemma setTubeY_y_range static r t :
  valid_draw r → -10 ≤ tube_y (setTubeY static r t) ≤ 0.
Proof.
  intros [H0 H1]. unfold setTubeY, bgLoc_height, tubeLoc_height.
  destruct static; cbn [tube_y]; [by vm_compute|].
  unfold JS.Math_floor. change (inject_Z (32 - 44 + 2)) with (- (10))%Q.
  pose proof (Qfloor_le (r * - (10))) as Hle.
  pose proof (Qlt_floor (r * - (10))) as Hlt.
  rewrite inject_Z_plus in Hlt. change (inject_Z 1) with 1%Q in Hlt.
  assert (inject_Z (Qfloor (r * - (10))) < inject_Z 1)%Q as H5
    by (change (inject_Z 1) with 1%Q; lra).
  assert (inject_Z (-11) < inject_Z (Qfloor (r * - (10))))%Q as H6
    by (change (inject_Z (-11)) with (- (11))%Q; lra).
  rewrite <- Zlt_Qlt in H5, H6. lia.
Qed.

(** X10. [renderTubes] moves a tube one pixel to the left, and puts a tube
    that would reach -6 back at 32 with a new height. For a draw of
    [Math.random()] the new height is between -10 and 0 (it is -8 in the
    static environment), so a tube between -5 and 67 with a height in that
    range stays between -5 and 66 with a height in that range. *)
Theorem moveTube_keeps_tube_in_range (static : bool) (r : Q) (t : tube) :
  valid_draw r →
  let t' := moveTube static r t in
  (-5 < tube_x t → tube_x t' = tube_x t - 1 ∧ tube_y t' = tube_y t)
  ∧ (tube_x t ≤ -5 → tube_x t' = 32 ∧ -10 ≤ tube_y t' ≤ 0
                     ∧ (static = true → tube_y t' = -8))
  ∧ (-5 ≤ tube_x t ≤ 67 → -10 ≤ tube_y t ≤ 0 →
     -5 ≤ tube_x t' ≤ 66 ∧ -10 ≤ tube_y t' ≤ 0).
Proof.
  intros Hr t'. subst t'. unfold moveTube. cbn [tube_x tube_y].
  pose proof (setTubeY_y_range static r (mkTube 32 (tube_y t)) Hr) as Hy.
  destruct (Z.leb_spec (tube_x t - 1) (-6)).
  - rewrite setTubeY_x. cbn [tube_x].
    split; [lia|]. split; [|lia]. intros _. split; [done|]. split; [done|].
    intros ->. by vm_compute.
  - cbn [tube_x tube_y]. split; [done|]. split; [lia|]. lia.
Qed.

Lemma moveTube_keeps_tube_in_range_witness :
  let t' := moveTube false (1 # 2) (mkTube (-5) (-8)) in
  (-5 < tube_x (mkTube (-5) (-8)) →
   tube_x t' = tube_x (mkTube (-5) (-8)) - 1
   ∧ tube_y t' = tube_y (mkTube (-5) (-8)))
  ∧ (tube_x (mkTube (-5) (-8)) ≤ -5 →
     tube_x t' = 32 ∧ -10 ≤ tube_y t' ≤ 0 ∧ (false = true → tube_y t' = -8))
  ∧ (-5 ≤ tube_x (mkTube (-5) (-8)) ≤ 67 →
     -10 ≤ tube_y (mkTube (-5) (-8)) ≤ 0 →
     -5 ≤ tube_x t' ≤ 66 ∧ -10 ≤ tube_y t' ≤ 0).
Proof.
  apply (moveTube_keeps_tube_in_range false (1 # 2) (mkTube (-5) (-8))).
  split; vm_compute; [discriminate | reflexivity].
Defined.

(** ** The invariant of a session *)

Lemma Math_round_speed_lower (v : Q) :
  (- (14 # 10) <= v)%Q → -140 ≤ JS.Math_round (v * 100).
Proof.
  intros Hv. unfold JS.Math_round.
  rewrite <- (Qfloor_Z (-140)). apply Qfloor_resp_le.
  change (inject_Z (-140)) with (- (140))%Q. lra.
Qed.

Lemma nextTarget_x_lower g :
  tubes_spaced (tube_x (tubes_0 g)) (tube_x (tubes_1 g)) →
  2 ≤ tube_x (tubes g (nextTarget g)).
Proof.
  unfold tubes_spaced, nextTarget, birdX. cbn [tubes].
  destruct (Z.ltb_spec 5 (tube_x (tubes_0 g) + 3)),
           (Z.ltb_spec (tube_x (tubes_0 g)) (tube_x (tubes_1 g))),
           (Z.ltb_spec (tube_x (tubes_1 g) + 3) 5);
    cbn [andb orb tubes]; lia.
Qed.

Lemma observed_frame_in_range g a :
  play_inv g → targetDistance g ≤ 28 →
  frame_in_range (mkFrame (observedState g (nextTarget g)) a).
Proof.
  intros (Hsp & Hy & Hv & Hy0 & Hy1 & _) Hnear.
  pose proof (nextTarget_x_lower g Hsp) as Hx.
  unfold frame_in_range, observedState. cbn [env tubeX diffY speedY].
  unfold targetDistance, birdX in Hnear.
  assert (-10 ≤ tube_y (tubes g (nextTarget g)) ≤ 0)
    by (by destruct (nextTarget g)).
  split; [lia|]. split; [lia|]. by apply Math_round_speed_lower.
Qed.

Lemma rewardTheBird_keeps_frames_in_range b reward ok :
  Forall frame_in_range (frameBuffer b) →
  ∃ b', rewardTheBird b reward ok = Some b'
        ∧ episodeFrameCount b' = 0%nat
        ∧ (length (frameBuffer b') ≤ 5)%nat
        ∧ Forall frame_in_range (frameBuffer b').
Proof.
  intros Hall.
  destruct (rewardTheBird_buffer_after b reward ok)
    as (b' & Hb' & Hfb & Hlen & Hcount & _).
  exists b'. repeat split; [done | done | lia |].
  rewrite Hfb. by apply Forall_drop.
Qed.

Lemma nextStep_play_inv g r1 r2 g' :
  gameState g = GAME → play_inv g → nextStep g r1 r2 = Some g' →
  gameState g' = GAME ∧ play_inv g'.
Proof.
  intros HG Hinv Hstep.
  destruct (nextStep_GAME_cases g r1 r2 HG) as (m1 & Hm1 & Hstep').
  rewrite Hstep in Hstep'. injection Hstep' as ->. cbv zeta.
  pose proof Hinv as (Hsp & Hy & Hv & Hy0 & Hy1 & Hlen & Hall).
  assert ((episodeFrameCount m1 ≤ length (frameBuffer m1)
           ≤ episodeFrameCount m1 + 5)%nat
          ∧ Forall frame_in_range (frameBuffer m1)) as [Hlen1 Hall1].
  { destruct (episodeEnds g).
    - rewrite rewardTheBird_with_targetTube in Hm1.
      destruct (rewardTheBird_keeps_frames_in_range (mind g) 5 true Hall)
        as (m & Hm & Hc & Hl & Ha).
      rewrite Hm in Hm1. injection Hm1 as <-.
      cbn [with_targetTube episodeFrameCount frameBuffer]. split; [lia|done].
    - injection Hm1 as <-. by cbn [with_targetTube episodeFrameCount frameBuffer]. }
  destruct (Z.ltb_spec 28 (targetDistance g)) as [Hfar|Hnear].
  - split; [done|]. unfold play_inv.
    by cbn [with_mind with_targetTubeIndex mind tubes_0 tubes_1 birdY
            birdYSpeed episodeFrameCount frameBuffer].
  - set (a := getAction _ _ _ _).
    pose proof (observed_frame_in_range g a Hinv Hnear) as Hframe.
    assert (Forall frame_in_range
              (frameBuffer m1 ++ [mkFrame (observedState g (nextTarget g)) a]))
      as Hall2 by (apply Forall_app; split; [done | by constructor]).
    destruct (bool_decide (a = JUMP)); (split; [done|]); unfold play_inv;
      cbn [with_birdYSpeed with_mind mind tubes_0 tubes_1 birdY birdYSpeed
           episodeFrameCount frameBuffer];
      rewrite length_app; cbn [length];
      repeat split; try done; try lia; lra.
Qed.

Lemma triggerGameOver_keeps_frames_in_range b :
  Forall frame_in_range (frameBuffer b) →
  ∃ b', triggerGameOver b = Some b'
        ∧ episodeFrameCount b' = 0%nat
        ∧ (length (frameBuffer b') ≤ 5)%nat
        ∧ Forall frame_in_range (frameBuffer b').
Proof.
  intros Hall. unfold triggerGameOver.
  destruct (rewardTheBird_keeps_frames_in_range b 100 false Hall)
    as (b1 & -> & _ & Hl & Ha).
  cbn [mbind option_bind]. eexists. split; [reflexivity|]. by cbn.
Qed.

Lemma moveTube_y_range static r t :
  valid_draw r → -10 ≤ tube_y t ≤ 0 → -10 ≤ tube_y (moveTube static r t) ≤ 0.
Proof.
  intros Hr Hy. unfold moveTube. cbn [tube_x tube_y].
  destruct (_ <=? _); [by apply setTubeY_y_range | done].
Qed.

Lemma renderGame_play_inv g i g' :
  valid_draw (tube_r0 i) → valid_draw (tube_r1 i) →
  play_inv g → renderGame g i = Some g' →
  play_inv g' ∧ (gameState g' = gameState g ∨ gameState g' = GAME_OVER).
Proof.
  intros Hr0 Hr1 (Hsp & Hy & Hv & Hy0 & Hy1 & Hlen & Hall) Hrender.
  set (g1 := renderTubes g (tube_r0 i) (tube_r1 i)).
  set (g2 := updateBirdGame g1).
  assert (play_inv g2 ∧ gameState g2 = gameState g ∧ mind g2 = mind g)
    as (Hinv2 & HG2 & Hmind2).
  { unfold play_inv, g2, g1, updateBirdGame, renderTubes, bgLoc_height.
    cbn [birdY birdYSpeed tubes_0 tubes_1 mind gameState isEnvironmentStatic].
    set (y := JS.Math_round _).
    pose proof (moved_tubes_spaced _ _ Hsp) as Hsp'.
    pose proof (moveTube_y_range (isEnvironmentStatic g) _ _ Hr0 Hy0).
    pose proof (moveTube_y_range (isEnvironmentStatic g) _ _ Hr1 Hy1).
    destruct (Z.ltb_spec y 0);
      [destruct (Z.ltb_spec 32 (0 + 5)); [lia|]
      |destruct (Z.ltb_spec 32 (y + 5))];
      cbn [birdY birdYSpeed tubes_0 tubes_1 mind gameState];
      rewrite !moveTube_x; repeat split; try done; try lia; lra. }
  revert Hrender. unfold renderGame. fold g1 g2. unfold checkCollision.
  destruct Hinv2 as (Hsp2 & Hyb & Hv2 & Hy02 & Hy12 & Hlen2 & Hall2).
  destruct (collides i).
  - destruct (triggerGameOver_keeps_frames_in_range (mind g2) Hall2)
      as (b' & -> & Hc & Hl & Ha).
    cbn [mbind option_bind]. intros [= <-]. split; [|by right].
    unfold play_inv. cbn [birdY birdYSpeed tubes_0 tubes_1 mind].
    repeat split; try done; lia.
  - intros [= <-]. split; [|left; by cbn].
    unfold play_inv. by cbn [birdY birdYSpeed tubes_0 tubes_1 mind].
Qed.

Lemma startGame_play_inv g r0 r1 :
  valid_draw r0 → valid_draw r1 →
  (episodeFrameCount (mind g) ≤ length (frameBuffer (mind g))
   ≤ episodeFrameCount (mind g) + 5)%nat →
  Forall frame_in_range (frameBuffer (mind g)) →
  play_inv (startGame g r0 r1).
Proof.
  intros Hr0 Hr1 Hlen Hall. unfold play_inv, startGame.
  cbn [birdY birdYSpeed tubes_0 tubes_1 mind]. rewrite !setTubeY_x.
  cbn [tube_x].
  split; [left; by vm_compute|]. split; [lia|]. split; [by vm_compute|].
  split; [by apply setTubeY_y_range|]. split; [by apply setTubeY_y_range|].
  done.
Qed.

Lemma session_inv_initial : session_inv initial_game.
Proof.
  split; [done|]. unfold initial_game.
  apply startGame_play_inv; cbn [mind initial_brain frameBuffer
                                 episodeFrameCount length];
    [by vm_compute | by vm_compute | lia | constructor].
Qed.

Lemma session_inv_react g e g' :
  session_inv g → valid_event e → react g e = Some g' → session_inv g'.
Proof.
  intros [Hhi Hinv] Hvalid Hreact. destruct e as [i|r0 r1|curEnv|T].
  - destruct Hvalid as (_ & _ & Hr0 & Hr1).
    cbn [react] in Hreact. unfold loop in Hreact.
    destruct (gameState g) eqn:HG; try done.
    + injection Hreact as <-. split; [by rewrite HG | done].
    + destruct (nextStep g (action_r1 i) (action_r2 i)) as [g1|] eqn:Hstep;
        [|done].
      cbn [mbind option_bind] in Hreact.
      destruct (nextStep_play_inv _ _ _ _ HG Hinv Hstep) as [HG1 Hinv1].
      destruct (renderGame_play_inv _ _ _ Hr0 Hr1 Hinv1 Hreact)
        as [Hinv' [HG'|HG']].
      * split; [by rewrite HG', HG1 | done].
      * split; [by rewrite HG' | done].
    + injection Hreact as <-.
      destruct Hinv as (_ & _ & _ & _ & _ & Hlen & Hall).
      split; [done|]. by apply (startGame_play_inv g).
  - injection Hreact as <-. unfold handleUserInteraction.
    destruct (gameState g) eqn:HG.
    + split; [by cbn | exact Hinv].
    + split; [by cbn; rewrite HG|].
      destruct Hinv as (Hsp & Hy & Hv & Hrest). unfold play_inv.
      cbn [with_birdYSpeed birdY birdYSpeed tubes_0 tubes_1 mind].
      split; [done|]. split; [done|]. split; [apply Qle_refl | done].
    + split; [by rewrite HG | done].
    + done.
  - injection Hreact as <-. split; [exact Hhi | exact Hinv].
  - injection Hreact as <-. split; [exact Hhi | exact Hinv].
Qed.

Lemma session_session_inv g : session g → session_inv g.
Proof.
  induction 1 as [|g e g' _ IH Hvalid Hreact];
    [apply session_inv_initial | by eapply session_inv_react].
Qed.

Lemma session_reachable g : session g → reachable g.
Proof.
  induction 1 as [|g e g' _ IH _ Hreact];
    [constructor | by econstructor].
Qed.

(** X11. In every state of a session (the draws being values of
    [Math.random()], the collisions arbitrary) the state [HI_SCORE] is not
    entered, the two tubes are 19 pixels apart with [tubes[0]] between -5
    and 48 and [tubes[1]] between -5 and 67, their heights are between -10
    and 0, the bird is between 0 and 28 and its speed is at least -1.4. *)
Theorem session_keeps_game_in_range (g : game) :
  session g →
  gameState g ≠ HI_SCORE
  ∧ (tube_x (tubes_1 g) = tube_x (tubes_0 g) + 19
     ∨ tube_x (tubes_0 g) = tube_x (tubes_1 g) + 19)
  ∧ -5 ≤ tube_x (tubes_0 g) ≤ 48 ∧ -5 ≤ tube_x (tubes_1 g) ≤ 67
  ∧ -10 ≤ tube_y (tubes_0 g) ≤ 0 ∧ -10 ≤ tube_y (tubes_1 g) ≤ 0
  ∧ 0 ≤ birdY g ≤ 28
  ∧ (- (14 # 10) <= birdYSpeed g)%Q.
Proof.
  intros Hs.
  destruct (session_session_inv g Hs)
    as (Hhi & Hsp & Hy & Hv & Hy0 & Hy1 & _).
  unfold tubes_spaced in Hsp. repeat split; try done; lia.
Qed.

Lemma game_started_session : session game_started.
Proof.
  apply (session_react initial_game (UserInteraction 0 0) game_started
           session_initial); [by vm_compute | reflexivity].
Defined.

Lemma session_keeps_game_in_range_witness :
  gameState game_started ≠ HI_SCORE
  ∧ (tube_x (tubes_1 game_started) = tube_x (tubes_0 game_started) + 19
     ∨ tube_x (tubes_0 game_started) = tube_x (tubes_1 game_started) + 19)
  ∧ -5 ≤ tube_x (tubes_0 game_started) ≤ 48
  ∧ -5 ≤ tube_x (tubes_1 game_started) ≤ 67
  ∧ -10 ≤ tube_y (tubes_0 game_started) ≤ 0
  ∧ -10 ≤ tube_y (tubes_1 game_started) ≤ 0
  ∧ 0 ≤ birdY game_started ≤ 28
  ∧ (- (14 # 10) <= birdYSpeed game_started)%Q.
Proof.
  apply (session_keeps_game_in_range game_started). exact game_started_session.
Defined.

(** X12. In every state of a session the frame buffer holds the frames
    recorded in the running episode and at most 5 older ones:
    [episodeFrameCount] is at most the length of the buffer, which is at
    most [episodeFrameCount + 5]. *)
Theorem session_buffer_is_episode_and_tail (g : game) :
  session g →
  (episodeFrameCount (mind g) ≤ length (frameBuffer (mind g))
   ≤ episodeFrameCount (mind g) + 5)%nat.
Proof.
  intros Hs. by destruct (session_session_inv g Hs) as (_ & _ & _ & _ & _ & _ & H & _).
Qed.

Lemma session_buffer_is_episode_and_tail_witness :
  (episodeFrameCount (mind game_started) ≤ length (frameBuffer (mind game_started))
   ≤ episodeFrameCount (mind game_started) + 5)%nat.
Proof.
  apply (session_buffer_is_episode_and_tail game_started).
  exact game_started_session.
Defined.

(** X13. Every state recorded in a session is in range: the distance
    component [tubeX] is between 2 and 33, the deviation [diffY] between
    -16 and 22, and the speed component [speedY] at least -140. *)
Theorem session_records_states_in_range (g : game) (f : frame) :
  session g → f ∈ frameBuffer (mind g) →
  2 ≤ tubeX (env f) ≤ 33 ∧ -16 ≤ diffY (env f) ≤ 22 ∧ -140 ≤ speedY (env f).
Proof.
  intros Hs Hf.
  destruct (session_session_inv g Hs) as (_ & _ & _ & _ & _ & _ & _ & Hall).
  rewrite Forall_forall in Hall. by apply Hall.
Qed.

Lemma play_session n : ∀ g g', session g → play n g = Some g' → session g'.
Proof.
  induction n as [|n IH]; intros g g' Hs Hplay; cbn [play] in Hplay.
  - by injection Hplay as <-.
  - destruct (loop g quiet_tick) as [g1|] eqn:Hloop; [|done].
    apply (IH g1); [|done].
    apply (session_react g (Tick quiet_tick) g1); [done | by vm_compute | done].
Qed.

Lemma game_recording_session : session game_recording.
Proof.
  apply (play_session 16 game_started); [exact game_started_session|].
  by vm_compute.
Defined.

Lemma session_records_states_in_range_witness :
  2 ≤ tubeX (mkState 0 33 (-14)) ≤ 33
  ∧ -16 ≤ diffY (mkState 0 33 (-14)) ≤ 22
  ∧ -140 ≤ speedY (mkState 0 33 (-14)).
Proof.
  apply (session_records_states_in_range game_recording
           (mkFrame (mkState 0 33 (-14)) JUMP)).
  - exact game_recording_session.
  - assert (frameBuffer (mind game_recording)
            = [mkFrame (mkState 0 33 (-14)) JUMP]) as -> by (by vm_compute).
    constructor.
Defined.

(** ** The estimates learnt in a session *)

Lemma training_session g : training g → session g.
Proof.
  induction 1 as [|g e g' _ IH Hvalid _ Hreact];
    [constructor | by econstructor].
Qed.

Lemma rewardTheBird_game_bounded b reward ok :
  (0 <= reward)%Q → (reward <= 100)%Q →
  Forall frame_in_range (frameBuffer b) →
  table_bounded (Q_table b) 500 →
  ∃ b', rewardTheBird b reward ok = Some b' ∧ table_bounded (Q_table b') 500.
Proof.
  intros H0 H100 Hall HT.
  apply (rewardTheBird_table_ind (fun T => table_bounded T 500)); [|done].
  intros T visited next Hv _ HTB.
  apply (visit_keeps_estimates_bounded T reward 100 500); try done.
  rewrite Forall_forall in Hall. destruct (Hall visited Hv) as (_ & Hd & _).
  change 100%Q with (inject_Z 100). rewrite <- Zle_Qle. lia.
Qed.

Lemma nextStep_table_bounded g r1 r2 g' :
  gameState g = GAME → play_inv g →
  table_bounded (Q_table (mind g)) 500 →
  nextStep g r1 r2 = Some g' → table_bounded (Q_table (mind g')) 500.
Proof.
  intros HG Hinv HT Hstep.
  destruct (nextStep_GAME_cases g r1 r2 HG) as (m1 & Hm1 & Hstep').
  rewrite Hstep in Hstep'. injection Hstep' as ->. cbv zeta.
  assert (table_bounded (Q_table m1) 500) as HT1.
  { destruct (episodeEnds g).
    - rewrite rewardTheBird_with_targetTube in Hm1.
      destruct (rewardTheBird_game_bounded (mind g) 5 true)
        as (m & Hm & HTm); try done; [apply Hinv|].
      rewrite Hm in Hm1. by injection Hm1 as <-.
    - by injection Hm1 as <-. }
  destruct (28 <? targetDistance g); [done|].
  by destruct (bool_decide _).
Qed.

Lemma renderGame_table_bounded g i g' :
  Forall frame_in_range (frameBuffer (mind g)) →
  table_bounded (Q_table (mind g)) 500 →
  renderGame g i = Some g' → table_bounded (Q_table (mind g')) 500.
Proof.
  intros Hall HT. unfold renderGame, checkCollision.
  assert (mind (updateBirdGame (renderTubes g (tube_r0 i) (tube_r1 i)))
          = mind g) as Hmind.
  { unfold updateBirdGame, renderTubes.
    by destruct (_ <? 0); destruct (bgLoc_height <? _). }
  rewrite Hmind. destruct (collides i); [|by intros [= <-]].
  unfold triggerGameOver.
  destruct (rewardTheBird_game_bounded (mind g) 100 false)
    as (m & -> & HTm); try done.
  cbn [mbind option_bind]. by intros [= <-].
Qed.

(** X14. In a session that learns from the empty table, without loading
    one, every estimate of the table stays between -500 and 500, whatever
    the draws and the collisions are. *)
Theorem training_keeps_estimates_bounded (g : game) :
  training g → table_bounded (Q_table (mind g)) 500.
Proof.
  induction 1 as [|g e g' Htr IH Hvalid Hload Hreact].
  - intros k v Hk. by vm_compute in Hk.
  - destruct (session_session_inv g (training_session g Htr)) as [Hhi Hinv].
    destruct e as [i|r0 r1|curEnv|T].
    + cbn [react] in Hreact. unfold loop in Hreact.
      destruct (gameState g) eqn:HG; try done.
      * by injection Hreact as <-.
      * destruct (nextStep g (action_r1 i) (action_r2 i)) as [g1|] eqn:Hstep;
          [|done].
        cbn [mbind option_bind] in Hreact.
        destruct (nextStep_play_inv _ _ _ _ HG Hinv Hstep) as [_ Hinv1].
        eapply renderGame_table_bounded; [apply Hinv1| |done].
        by eapply nextStep_table_bounded.
      * by injection Hreact as <-.
    + injection Hreact as <-. unfold handleUserInteraction.
      by destruct (gameState g).
    + by injection Hreact as <-.
    + by destruct (Hload T).
Qed.

Lemma play_training n : ∀ g g', training g → play n g = Some g' → training g'.
Proof.
  induction n as [|n IH]; intros g g' Hs Hp; cbn [play] in Hp.
  - by injection Hp as <-.
  - destruct (loop g quiet_tick) as [g1|] eqn:Hloop; [|done].
    apply (IH g1); [|done].
    apply (training_react g (Tick quiet_tick) g1);
      [done | by vm_compute | done | done].
Qed.

Lemma game_trained_training : training game_trained.
Proof.
  apply (play_training 50 game_started); [|by vm_compute].
  apply (training_react initial_game (UserInteraction 0 0) game_started
           training_initial); [by vm_compute | done | reflexivity].
Defined.

Lemma training_keeps_estimates_bounded_witness :
  table_bounded (Q_table (mind game_trained)) 500.
Proof.
  apply (training_keeps_estimates_bounded game_trained).
  exact game_trained_training.
Defined.

(** ** A collision and the restart *)

Lemma rewardTheBird_trials b reward ok b' :
  rewardTheBird b reward ok = Some b' → trials b' = trials b.
Proof.
  unfold rewardTheBird. destruct (rewardTheBird_loop _ _ _ _ _ _); [|done].
  cbn [mbind option_bind]. by intros [= <-].
Qed.

Lemma nextStep_trials g r1 r2 g' :
  gameState g = GAME → nextStep g r1 r2 = Some g' →
  trials (mind g') = trials (mind g)
  ∧ hiScore g' = hiScore g ∧ score g' = score g.
Proof.
  intros HG Hstep.
  destruct (nextStep_GAME_cases g r1 r2 HG) as (m1 & Hm1 & Hstep').
  rewrite Hstep in Hstep'. injection Hstep' as ->. cbv zeta.
  assert (trials m1 = trials (mind g)) as Ht.
  { destruct (episodeEnds g).
    - by apply rewardTheBird_trials in Hm1.
    - by injection Hm1 as <-. }
  destruct (28 <? targetDistance g); [done|]. by destruct (bool_decide _).
Qed.

(** X15. A collision found on a tick of the state [GAME] ends the game: the
    state is [GAME_OVER], one more trial is counted, [targetTubeIndex] is
    -1, the count of frames is 0 and at most 5 frames are kept; the high
    score does not decrease and is at least the score. The next tick starts
    a new game with everything that was learnt: the state is [GAME], the
    score 0, the bird at 14 with speed 0, the tubes at 48 and 67, the table
    and the buffer are the ones of the end of the game, and the first
    [nextStep] of the new game does not close an episode again. *)
Theorem collision_ends_game_and_next_tick_restarts (g : game)
    (i i' : tick_input) :
  gameState g = GAME → collides i = true →
  ∃ g1 g2,
    loop g i = Some g1
    ∧ gameState g1 = GAME_OVER
    ∧ trials (mind g1) = S (trials (mind g))
    ∧ targetTubeIndex (mind g1) = Some (-1)
    ∧ episodeFrameCount (mind g1) = 0%nat
    ∧ (length (frameBuffer (mind g1)) ≤ 5)%nat
    ∧ hiScore g ≤ hiScore g1 ∧ score g1 ≤ hiScore g1
    ∧ loop g1 i' = Some g2
    ∧ gameState g2 = GAME
    ∧ mind g2 = mind g1 ∧ hiScore g2 = hiScore g1
    ∧ score g2 = 0 ∧ birdY g2 = 14 ∧ birdYSpeed g2 = 0%Q
    ∧ tube_x (tubes_0 g2) = 48 ∧ tube_x (tubes_1 g2) = 67
    ∧ episodeEnds g2 = false.
Proof.
  intros HG Hcol.
  destruct (nextStep_GAME g (action_r1 i) (action_r2 i) HG)
    as (g0 & Hg0 & HG0 & _).
  destruct (nextStep_trials _ _ _ _ HG Hg0) as (Htr0 & Hhi0 & Hsc0).
  unfold loop at 1. rewrite HG, Hg0. cbn [mbind option_bind].
  unfold renderGame, checkCollision. rewrite Hcol.
  set (g' := updateBirdGame _).
  assert (mind g' = mind g0 ∧ hiScore g' = hiScore g0) as [Hmind Hhi].
  { unfold g', updateBirdGame, renderTubes.
    by destruct (_ <? 0); destruct (bgLoc_height <? _). }
  unfold triggerGameOver.
  destruct (rewardTheBird_buffer_after (mind g') 100 false)
    as (m & Hm & _ & Hlen & _).
  pose proof (rewardTheBird_trials _ _ _ _ Hm) as Htrm.
  rewrite Hm. cbn [mbind option_bind].
  set (score1 := if birdX =? _ then _ else _).
  eexists _, _. split; [reflexivity|].
  cbn [gameState mind trials targetTubeIndex episodeFrameCount frameBuffer
       hiScore score].
  split; [done|]. split; [by rewrite Htrm, Hmind, Htr0|].
  split; [done|]. split; [done|]. split; [lia|].
  split; [destruct (Z.ltb_spec (hiScore g') score1); lia|].
  split; [destruct (Z.ltb_spec (hiScore g') score1); lia|].
  unfold loop. cbn [gameState]. split; [reflexivity|].
  cbn [with_gameState startGame gameState mind hiScore score birdY birdYSpeed
       tubes_0 tubes_1].
  rewrite !setTubeY_x. cbn [tube_x].
  repeat split; try done; try (by vm_compute).
  unfold episodeEnds. cbn [mind targetTubeIndex].
  apply bool_decide_eq_false_2. intros [= H]. revert H.
  unfold nextTarget. by destruct (_ && _).
Qed.

Lemma collision_ends_game_and_next_tick_restarts_witness :
  ∃ g1 g2,
    loop game_near collision_tick = Some g1
    ∧ gameState g1 = GAME_OVER
    ∧ trials (mind g1) = S (trials (mind game_near))
    ∧ targetTubeIndex (mind g1) = Some (-1)
    ∧ episodeFrameCount (mind g1) = 0%nat
    ∧ (length (frameBuffer (mind g1)) ≤ 5)%nat
    ∧ hiScore game_near ≤ hiScore g1 ∧ score g1 ≤ hiScore g1
    ∧ loop g1 quiet_tick = Some g2
    ∧ gameState g2 = GAME
    ∧ mind g2 = mind g1 ∧ hiScore g2 = hiScore g1
    ∧ score g2 = 0 ∧ birdY g2 = 14 ∧ birdYSpeed g2 = 0%Q
    ∧ tube_x (tubes_0 g2) = 48 ∧ tube_x (tubes_1 g2) = 67
    ∧ episodeEnds g2 = false.
Proof.
  apply (collision_ends_game_and_next_tick_restarts game_near collision_tick
           quiet_tick); reflexivity.
Defined.

(** ** The handlers of the table *)

Lemma loadModel_malformed_witness :
  Config.loadModel sample_JSON page_malformed
  = (page_malformed, throw SyntaxError)
  ∧ Config2.loadModel sample_JSON page_malformed
    = (page_malformed, throw SyntaxError).
Proof.
  apply (loadModel_malformed sample_JSON page_malformed "((oops").
  - reflexivity.
  - by vm_compute.
Defined.

Lemma loadModel_missing_guarded_witness :
  Config.loadModel sample_JSON page_unsaved
  = (page_unsaved, alert "No saved model found in local storage").
Proof.
  apply (loadModel_missing_guarded sample_JSON page_unsaved). reflexivity.
Defined.

(** X18. [saveModel] writes the item "flappybird-qtable" of the local
    storage and nothing else: [Q_table] and every other item are as before,
    the item holds the text of the table, and saving a second time changes
    nothing more. *)
Theorem saveModel_writes_one_item (JSON : JSON_object) (p : page) :
  let saved := (Config.saveModel JSON p).1 in
  page_Q_table saved = page_Q_table p
  ∧ localStorage saved !! "flappybird-qtable"
    = Some (JSON_stringify JSON (page_Q_table p))
  ∧ (∀ k, k ≠ "flappybird-qtable" →
          localStorage saved !! k = localStorage p !! k)
  ∧ (Config.saveModel JSON p).2 = alert "Model was saved successfully!"
  ∧ Config.saveModel JSON saved = (saved, alert "Model was saved successfully!")
  ∧ Config2.saveModel JSON p = Config.saveModel JSON p.
Proof.
  intros saved. subst saved. unfold Config2.saveModel, Config.saveModel.
  cbn [fst snd page_Q_table localStorage].
  split; [done|]. split; [apply lookup_insert_eq|].
  split; [intros k Hk; by apply lookup_insert_ne|].
  split; [done|]. split; [|done]. by rewrite insert_insert_eq.
Qed.

(** X19. [loadModel], in either copy, is all or nothing and never writes
    the local storage: unless it announces the success the page is exactly
    the one before the call, and when it announces it [Q_table] is the value
    that [JSON.parse] returns for the stored text, whatever that value is
    (no check is made that it is a table). *)
Theorem loadModel_all_or_nothing (JSON : JSON_object) (p : page)
    (loaded : page * completion) :
  loaded = Config.loadModel JSON p ∨ loaded = Config2.loadModel JSON p →
  localStorage loaded.1 = localStorage p
  ∧ (loaded.2 ≠ alert "Model was loaded successfully!" → loaded.1 = p)
  ∧ (loaded.2 = alert "Model was loaded successfully!" →
     JSON_parse JSON (ToString (localStorage p !! "flappybird-qtable"))
     = Some (page_Q_table loaded.1)).
Proof.
  intros [-> | ->]; unfold Config.loadModel, Config2.loadModel;
    repeat case_bool_decide;
    destruct (JSON_parse JSON _) as [v|];
    cbn [fst snd localStorage page_Q_table]; repeat split; done.
Qed.

Lemma loadModel_all_or_nothing_witness :
  localStorage (Config.loadModel sample_JSON page_malformed).1
  = localStorage page_malformed
  ∧ ((Config.loadModel sample_JSON page_malformed).2
     ≠ alert "Model was loaded successfully!" →
     (Config.loadModel sample_JSON page_malformed).1 = page_malformed)
  ∧ ((Config.loadModel sample_JSON page_malformed).2
     = alert "Model was loaded successfully!" →
     JSON_parse sample_JSON
       (ToString (localStorage page_malformed !! "flappybird-qtable"))
     = Some (page_Q_table (Config.loadModel sample_JSON page_malformed).1)).
Proof.
  apply (loadModel_all_or_nothing sample_JSON page_malformed).
  left. reflexivity.
Defined.

(** ** The tables of the program can be stored *)


















(** * The calls of [rewardTheBird] in a game *)

Lemma nextStep_buffer_length g r1 r2 :
  gameState g = GAME →
  ∃ g1, nextStep g r1 r2 = Some g1
        ∧ gameState g1 = GAME ∧ score g1 = score g
        ∧ tubes_0 g1 = tubes_0 g ∧ tubes_1 g1 = tubes_1 g
        ∧ targetTubeIndex (mind g1) = Some (Z.of_nat (nextTarget g))
        ∧ length (frameBuffer (mind g1))
          = ((if episodeEnds g
              then Nat.min 5 (length (frameBuffer (mind g)) - 1)
              else length (frameBuffer (mind g)))
             + (if (28 <? targetDistance g)%Z then 0 else 1))%nat.
Proof.
  intros HG.
  destruct (nextStep_GAME_cases g r1 r2 HG) as (m1 & Hm1 & Hstep).
  cbv zeta in Hstep. eexists. split; [exact Hstep|].
  assert (length (frameBuffer m1)
          = if episodeEnds g
            then Nat.min 5 (length (frameBuffer (mind g)) - 1)
            else length (frameBuffer (mind g))) as Hlen.
  { destruct (episodeEnds g).
    - destruct (rewardTheBird_buffer_after
                  (with_targetTube (mind g) (nextTarget g)) 5 true)
        as (b' & Hb' & _ & Hl & _).
      rewrite Hb' in Hm1. by injection Hm1 as <-.
    - by injection Hm1 as <-. }
  destruct (28 <? targetDistance g).
  - cbn [with_mind with_targetTubeIndex gameState score tubes_0 tubes_1 mind
         targetTubeIndex frameBuffer].
    repeat split; try done. lia.
  - destruct (bool_decide _);
      cbn [with_birdYSpeed with_mind gameState score tubes_0 tubes_1 mind
           targetTubeIndex frameBuffer];
      rewrite length_app; cbn [length]; repeat split; try done; lia.
Qed.

Lemma updateBirdGame_keeps g :
  gameState (updateBirdGame g) = gameState g
  ∧ score (updateBirdGame g) = score g
  ∧ tubes_0 (updateBirdGame g) = tubes_0 g
  ∧ tubes_1 (updateBirdGame g) = tubes_1 g
  ∧ activeTube (updateBirdGame g) = activeTube g
  ∧ mind (updateBirdGame g) = mind g.
Proof.
  unfold updateBirdGame. destruct (_ <? 0); by destruct (bgLoc_height <? _).
Qed.

Lemma nextTarget_cases g :
  (nextTarget g = 0%nat
   ∧ 3 ≤ tube_x (tubes_0 g)
   ∧ (tube_x (tubes_0 g) < tube_x (tubes_1 g) ∨ tube_x (tubes_1 g) ≤ 1))
  ∨ (nextTarget g = 1%nat
     ∧ (tube_x (tubes_0 g) ≤ 2
        ∨ (tube_x (tubes_1 g) ≤ tube_x (tubes_0 g) ∧ 2 ≤ tube_x (tubes_1 g)))).
Proof.
  unfold nextTarget, birdX. cbn [tubes].
  destruct (Z.ltb_spec 5 (tube_x (tubes_0 g) + 3)),
           (Z.ltb_spec (tube_x (tubes_0 g)) (tube_x (tubes_1 g))),
           (Z.ltb_spec (tube_x (tubes_1 g) + 3) 5);
    cbn [andb orb]; lia.
Qed.

(** An episode ends only when the buffer has 6 frames. *)
Lemma episodeEnds_buffer g :
  gameState g = GAME → buffer_inv g → episodeEnds g = true →
  (6 ≤ length (frameBuffer (mind g)))%nat.
Proof.
  unfold buffer_inv, episodeEnds, tubes_spaced.
  intros -> (Hsp & _ & Hidx) He. apply bool_decide_eq_true in He.
  destruct (nextTarget_cases g) as [(Hn & ?)|(Hn & ?)];
    rewrite Hn in He; cbn [Z.of_nat] in He;
    destruct Hidx as [(Hi & ?)|[(Hi & ?)|(Hi0 & Hi1 & ?)]];
    rewrite ?Hi in He; try done; lia.
Qed.

(** The variables at the collision test satisfy the invariant, with the
    target that [nextStep] has just set. *)
Lemma beforeCheckCollision_inv g i :
  gameState g = GAME → buffer_inv g →
  ∃ g2, beforeCheckCollision g i = Some g2
        ∧ gameState g2 = GAME ∧ buffer_inv g2.
Proof.
  intros HG Hinv.
  destruct (nextStep_buffer_length g (action_r1 i) (action_r2 i) HG)
    as (g1 & Hg1 & HG1 & Hsc & Ht0 & Ht1 & Hidx & Hlen).
  unfold beforeCheckCollision. rewrite Hg1. cbn [mbind option_bind].
  eexists. split; [reflexivity|].
  destruct (updateBirdGame_keeps (renderTubes g1 (tube_r0 i) (tube_r1 i)))
    as (Hu1 & Hu2 & Hu3 & Hu4 & _ & Hu5).
  split; [by rewrite Hu1|].
  pose proof (episodeEnds_buffer g HG Hinv) as Hends.
  revert Hinv. unfold buffer_inv. rewrite HG, Hu1, Hu2, Hu3, Hu4, Hu5.
  cbn [renderTubes gameState score tubes_0 tubes_1 mind].
  rewrite HG1, Hsc, Ht0, Ht1, Hidx, Hlen, !moveTube_x.
  intros (Hsp & Hscore & Hcases).
  split; [by apply moved_tubes_spaced|].
  revert Hends Hsp Hscore Hcases.
  unfold episodeEnds, targetDistance, tubes_spaced, birdX.
  intros Hends Hsp Hscore Hcases.
  destruct (nextTarget_cases g) as [(Hn & ?)|(Hn & ?)];
    rewrite Hn in *; cbn [Z.of_nat tubes] in *;
    case_bool_decide as He;
    try (specialize (Hends eq_refl));
    destruct (Z.ltb_spec 28 (tube_x (tubes_0 g) - 5));
    destruct (Z.ltb_spec 28 (tube_x (tubes_1 g) - 5));
    destruct (Z.leb_spec (tube_x (tubes_0 g) - 1) (-6)),
             (Z.leb_spec (tube_x (tubes_1 g) - 1) (-6));
    destruct Hcases as [(Hi & ?)|[(Hi & ?)|(Hi0 & Hi1 & ?)]];
    rewrite ?Hi in He; try done; try lia;
    (split; [lia|]);
    first [left; split; [done|lia] | right; left; split; [done|lia]].
Qed.

(** A collision is possible only when the buffer has 6 frames. *)
Lemma collision_possible_buffer g :
  gameState g = GAME → buffer_inv g → collision_possible g = true →
  (6 ≤ length (frameBuffer (mind g)))%nat.
Proof.
  unfold buffer_inv, collision_possible, tubes_spaced, birdX.
  intros -> (Hsp & Hscore & Hcases) Hc.
  repeat (apply orb_true_iff in Hc as [Hc|Hc]);
    apply andb_true_iff in Hc as [H1 H2];
    try (apply Z.leb_le in H1); try (apply Z.leb_le in H2);
    destruct Hcases as [(Hi & ?)|[(Hi & ?)|(Hi0 & Hi1 & ?)]]; lia.
Qed.

Lemma checkCollision_buffer_inv g c g' :
  gameState g = GAME → buffer_inv g → checkCollision g c = Some g' →
  buffer_inv g'.
Proof.
  intros HG Hinv. unfold checkCollision. destruct c.
  - destruct (triggerGameOver_total (mind g)) as (b' & -> & Hb').
    cbn [mbind option_bind]. intros [= <-]. by unfold buffer_inv.
  - assert (tube_x (tubes g (activeTube g)) = tube_x (tubes_0 g)
            ∨ tube_x (tubes g (activeTube g)) = tube_x (tubes_1 g)) as Hact
      by (destruct (activeTube g); cbn [tubes]; auto).
    revert Hinv. unfold buffer_inv, tubes_spaced. rewrite HG.
    intros (Hsp & Hscore & Hcases).
    destruct (Z.eqb_spec birdX (tube_x (tubes g (activeTube g)) + 6)) as [E|E];
      unfold birdX in E; intros [= <-];
      cbn [gameState score tubes_0 tubes_1 mind];
      (split; [done|]);
      destruct Hcases as [(Hi & ?)|[(Hi & ?)|(Hi0 & Hi1 & ?)]];
      (split; [lia|]);
      first [ left; split; [done|lia]
            | right; left; split; [done|lia]
            | do 2 right; repeat split; (done || lia) ].
Qed.

Lemma buffer_inv_initial : buffer_inv initial_game.
Proof.
  unfold buffer_inv, tubes_spaced.
  assert (tube_x (tubes_0 initial_game) = 48) as -> by by vm_compute.
  assert (tube_x (tubes_1 initial_game) = 67) as -> by by vm_compute.
  cbn. split; [lia|]. split; [lia|]. do 2 right. by repeat split.
Qed.

Lemma loop_GAME g i :
  gameState g = GAME →
  loop g i = g2 ← beforeCheckCollision g i; checkCollision g2 (collides i).
Proof.
  intros HG. unfold loop, beforeCheckCollision, renderGame. rewrite HG.
  by destruct (nextStep g _ _).
Qed.

Lemma buffer_inv_react g e g' :
  buffer_inv g → react g e = Some g' → buffer_inv g'.
Proof.
  intros Hinv Hreact. destruct e as [i|r0 r1|curEnv|T].
  - cbn [react] in Hreact. destruct (gameState g) eqn:HG.
    + unfold loop in Hreact. rewrite HG in Hreact. by injection Hreact as <-.
    + rewrite loop_GAME in Hreact by done.
      destruct (beforeCheckCollision_inv g i HG Hinv)
        as (g2 & Hg2 & HG2 & Hinv2).
      rewrite Hg2 in Hreact. cbn [mbind option_bind] in Hreact.
      by apply (checkCollision_buffer_inv g2 (collides i)).
    + unfold loop in Hreact. rewrite HG in Hreact. injection Hreact as <-.
      revert Hinv. unfold buffer_inv, tubes_spaced. rewrite HG.
      cbn [gameState with_gameState startGame tubes_0 tubes_1 mind score].
      rewrite !setTubeY_x. cbn [tube_x]. intros ->.
      assert (JS.Math_round (48 + 0 * 19) = 48) as -> by by vm_compute.
      assert (JS.Math_round (48 + 1 * 19) = 67) as -> by by vm_compute.
      split; [lia|]. split; [lia|]. do 2 right. by repeat split.
    + revert Hinv. unfold buffer_inv. by rewrite HG.
  - injection Hreact as <-. revert Hinv.
    unfold buffer_inv, handleUserInteraction.
    destruct (gameState g) eqn:HG;
      cbn [with_gameState with_birdYSpeed gameState tubes_0 tubes_1 mind
           score];
      by rewrite ?HG.
  - injection Hreact as <-. exact Hinv.
  - injection Hreact as <-. exact Hinv.
Qed.

Lemma pixel_session_buffer_inv g : pixel_session g → buffer_inv g.
Proof.
  induction 1 as [|g e g' _ IH _ Hreact];
    [apply buffer_inv_initial | by eapply buffer_inv_react].
Qed.

Lemma rewardTheBird_six_frames b reward ok :
  (6 ≤ length (frameBuffer b))%nat → keeps_final_five b reward ok.
Proof.
  intros Hlen. split; [done|].
  destruct (rewardTheBird_buffer_after b reward ok)
    as (b' & Hb' & Hfb & Hl & Hc & _).
  exists b'. split; [done|]. split; [|split; [lia|done]].
  rewrite Hfb. f_equal. lia.
Qed.

Lemma play_pixel_session n :
  ∀ g g', pixel_session g → play n g = Some g' → pixel_session g'.
Proof.
  induction n as [|n IH]; intros g g' Hs Hplay; cbn [play] in Hplay.
  - by injection Hplay as <-.
  - destruct (loop g quiet_tick) as [g1|] eqn:Hloop; [|done].
    apply (IH g1); [|done].
    by apply (pixel_session_react g (Tick quiet_tick) g1).
Qed.

Lemma game_passed_pixel_session : pixel_session game_passed.
Proof.
  apply (play_pixel_session 46 game_started); [|by vm_compute].
  exact (pixel_session_react initial_game (UserInteraction 0 0) game_started
           pixel_session_initial I eq_refl).
Defined.

(** C4. In a session whose collisions are found by the pixel test, every
    call of [rewardTheBird] finds at least 6 frames in the buffer and
    leaves exactly its final 5, with the count of frames at 0: the call of
    [nextStep] on a tick on which the episode ends, and the call of
    [triggerGameOver] on a tick on which a collision is found. (No call
    finds fewer than 5 frames, so the case of a shorter buffer does not
    arise.) On any variables the call returns with the count at 0 and a
    buffer of at most 5 frames, never longer than the one it found. *)
Theorem rewardTheBird_keeps_final_five (g : game) (i : tick_input) :
  pixel_session g → gameState g = GAME → pixel_event g (Tick i) →
  ∃ g2, beforeCheckCollision g i = Some g2
    ∧ (episodeEnds g = true →
       keeps_final_five (with_targetTube (mind g) (nextTarget g)) 5 true)
    ∧ (collides i = true → keeps_final_five (mind g2) 100 false)
    ∧ (∀ b reward ok,
         ∃ b', rewardTheBird b reward ok = Some b'
               ∧ episodeFrameCount b' = 0%nat
               ∧ (length (frameBuffer b') ≤ 5)%nat
               ∧ (length (frameBuffer b')
                  ≤ Nat.max (length (frameBuffer b)) 5)%nat
               ∧ (length (frameBuffer b') ≤ length (frameBuffer b))%nat).
Proof.
  intros Hs HG Hpix.
  pose proof (pixel_session_buffer_inv g Hs) as Hinv.
  destruct (beforeCheckCollision_inv g i HG Hinv) as (g2 & Hg2 & HG2 & Hinv2).
  exists g2. split; [done|]. split; [|split].
  - intros He. apply rewardTheBird_six_frames.
    by apply episodeEnds_buffer.
  - intros Hc. apply rewardTheBird_six_frames.
    destruct (Hpix HG Hc) as (g2' & Hg2' & Hposs).
    rewrite Hg2 in Hg2'. injection Hg2' as <-.
    by apply collision_possible_buffer.
  - intros b reward ok.
    destruct (rewardTheBird_buffer_after b reward ok)
      as (b' & Hb' & _ & Hl & Hc & _).
    exists b'. repeat split; (done || lia).
Qed.

Lemma rewardTheBird_keeps_final_five_witness :
  ∃ g2, beforeCheckCollision game_passed collision_tick = Some g2
    ∧ (episodeEnds game_passed = true →
       keeps_final_five
         (with_targetTube (mind game_passed) (nextTarget game_passed)) 5 true)
    ∧ (collides collision_tick = true → keeps_final_five (mind g2) 100 false)
    ∧ (∀ b reward ok,
         ∃ b', rewardTheBird b reward ok = Some b'
               ∧ episodeFrameCount b' = 0%nat
               ∧ (length (frameBuffer b') ≤ 5)%nat
               ∧ (length (frameBuffer b')
                  ≤ Nat.max (length (frameBuffer b)) 5)%nat
               ∧ (length (frameBuffer b') ≤ length (frameBuffer b))%nat).
Proof.
  apply (rewardTheBird_keeps_final_five game_passed collision_tick).
  - exact game_passed_pixel_session.
  - by vm_compute.
  - intros _ _.
    exists (default game_passed
              (beforeCheckCollision game_passed collision_tick)).
    split; by vm_compute.
Defined.
